(** * translate-script.py: XML string tables translated in batches

    A shallow embedding of [translate-script.py] and the properties of its
    four stages: the Collector ([collect_translatable_text]), the translator
    adapter ([batch_translate]), the Writer (the update loop of
    [translate_xml_to_urdu]) and the command line ([main]).

    Python values are modelled as the script has them:
    - a [str] is the list of its Unicode code points ([pystr]), so that the
      ellipsis U+2026 is one character and [str.strip] sees Unicode white
      space;
    - an [xml.etree.ElementTree.Element] is a node with a tag, an ordered
      attribute dictionary, optional text and tail, and its children;
    - a reference to an element is the path of child indices that leads to
      it from the root (the script never adds, removes or moves an element,
      and a parsed tree shares no element between two parents);
    - printing, sleeping, calls of the translation service and file output
      are events of a trace, in the order the script performs them. *)

From Stdlib Require Import String Ascii DecimalString.
From Stdlib Require Import List NArith ZArith Arith Bool Lia.
Import ListNotations.

(** ** Python strings *)

Module Py.

Definition pystr := list N.

(** An ASCII literal of the script as a Python string. *)
Definition py (s : string) : pystr :=
  List.map N_of_ascii (list_ascii_of_string s).

Fixpoint str_eqb (a b : pystr) : bool :=
  match a, b with
  | [], [] => true
  | x :: a', y :: b' => N.eqb x y && str_eqb a' b'
  | _, _ => false
  end.

(** Truth value of a string: [if s:]. *)
Definition truthy (s : pystr) : bool :=
  match s with [] => false | _ :: _ => true end.

(** Truth value of [Optional[str]]: [None] and [''] are false. *)
Definition truthy_opt (o : option pystr) : bool :=
  match o with None => false | Some s => truthy s end.

(** [str.isspace] on one character, the set [str.strip()] removes:
    characters of bidirectional type WS, B or S, or of category Zs. *)
Definition isspace (c : N) : bool :=
  ((9 <=? c) && (c <=? 13) || (28 <=? c) && (c <=? 32)
   || (c =? 133) || (c =? 160) || (c =? 5760)
   || (8192 <=? c) && (c <=? 8202)
   || (c =? 8232) || (c =? 8233) || (c =? 8239) || (c =? 8287)
   || (c =? 12288))%N.

Fixpoint lstrip (s : pystr) : pystr :=
  match s with
  | [] => []
  | c :: s' => if isspace c then lstrip s' else s
  end.

Definition rstrip (s : pystr) : pystr := rev (lstrip (rev s)).

(** [s.strip()] *)
Definition strip (s : pystr) : pystr := rstrip (lstrip s).

(** [s.startswith(prefix)] *)
Fixpoint startswith (s prefix : pystr) {struct prefix} : bool :=
  match prefix, s with
  | [], _ => true
  | x :: prefix', y :: s' => N.eqb x y && startswith s' prefix'
  | _ :: _, [] => false
  end.

(** [s.endswith(suffix)] *)
Definition endswith (s suffix : pystr) : bool :=
  startswith (rev s) (rev suffix).

(** [sub in s]: [sub] occurs in [s] as a substring. *)
Fixpoint contains (sub s : pystr) : bool :=
  startswith s sub ||
  match s with
  | [] => false
  | _ :: s' => contains sub s'
  end.

(** [s.replace(old, new)] for a non-empty [old]: occurrences are replaced
    from the left and do not overlap. [skip] counts the characters of an
    occurrence already replaced that are still to be passed over. *)
Fixpoint replace_from (old new s : pystr) (skip : nat) : pystr :=
  match s with
  | [] => []
  | c :: s' =>
      match skip with
      | S k => replace_from old new s' k
      | O =>
          if startswith s old
          then new ++ replace_from old new s' (length old - 1)
          else c :: replace_from old new s' 0
      end
  end.

(** [s.replace(old, new)]; with an empty [old] Python puts [new] before
    every character and at the end. *)
Definition replace (s old new : pystr) : pystr :=
  match old with
  | [] => flat_map (fun c => new ++ [c]) s ++ new
  | _ :: _ => replace_from old new s 0
  end.

(** [s.rfind(c)] for a one-character [c]: the highest index of [c] in [s],
    or -1. [i] is the index of the head of [s]. *)
Fixpoint rfind_from (c : N) (s : pystr) (i : Z) : Z :=
  match s with
  | [] => (-1)%Z
  | x :: s' =>
      let r := rfind_from c s' (i + 1)%Z in
      if (0 <=? r)%Z then r else if N.eqb x c then i else (-1)%Z
  end.

Definition rfind (s : pystr) (c : N) : Z := rfind_from c s 0%Z.

(** The slices [s[:i]] and [s[i:]] for an index [i >= 0]. *)
Definition slice_to (s : pystr) (i : Z) : pystr := firstn (Z.to_nat i) s.
Definition slice_from (s : pystr) (i : Z) : pystr := skipn (Z.to_nat i) s.

(** [str(n)] for a natural number. *)
Definition str_of_nat (n : nat) : pystr :=
  py (NilEmpty.string_of_uint (Nat.to_uint n)).

(** A number written in decimal on at least [width] digits, padded with
    zeros: the [%02d]-like fields of [strftime]. *)
Definition zero_padded (width n : nat) : pystr :=
  let digits := str_of_nat n in
  repeat 48%N (width - length digits) ++ digits.

Definition is_digit (c : N) : bool := ((48 <=? c) && (c <=? 57))%N.

(** The characters the script names. *)
Definition ELLIPSIS : N := 8230.
Definition PERCENT : N := 37.
Definition DOT : N := 46.
Definition SLASH : N := 47.

End Py.
Import Py.

(** ** The document *)

#[local] Set Warnings "-register-all".

(** An [ET.Element]. [attrib] is the element's dictionary in insertion
    order; the keys of a dictionary are pairwise distinct ([dict_ok]). *)
Inductive Element : Type :=
  mkElement {
    tag : pystr;
    attrib : list (pystr * pystr);
    text : option pystr;
    tail : option pystr;
    children : list Element
  }.

(** A reference to an element of the tree: the child indices from the root. *)
Definition path := list nat.

(** One collected tuple [(text_to_translate, element_reference, attribute_name)]. *)
Definition TranslationUnit : Type := pystr * path * pystr.

Definition unit_text (u : TranslationUnit) : pystr := fst (fst u).
Definition unit_elem (u : TranslationUnit) : path := snd (fst u).
Definition unit_attr (u : TranslationUnit) : pystr := snd u.

Definition dict_ok (d : list (pystr * pystr)) : Prop := NoDup (List.map fst d).

(** [d.get(k)] *)
Fixpoint dict_get (d : list (pystr * pystr)) (k : pystr) : option pystr :=
  match d with
  | [] => None
  | (k', v) :: d' => if str_eqb k' k then Some v else dict_get d' k
  end.

(** [d[k] = v]: the value of an existing key is replaced where the key
    stands, a new key goes to the end. *)
Fixpoint dict_set (d : list (pystr * pystr)) (k v : pystr) : list (pystr * pystr) :=
  match d with
  | [] => [(k, v)]
  | (k', v') :: d' =>
      if str_eqb k' k then (k', v) :: d' else (k', v') :: dict_set d' k v
  end.

(** The element a reference designates. *)
Fixpoint get_elem (e : Element) (p : path) : option Element :=
  match p with
  | [] => Some e
  | i :: p' =>
      match nth_error (children e) i with
      | Some c => get_elem c p'
      | None => None
      end
  end.

(** [l[i] = f(l[i])] on a list of children. *)
Fixpoint update_nth {A : Type} (i : nat) (f : A -> A) (l : list A) : list A :=
  match l, i with
  | [], _ => []
  | x :: l', O => f x :: l'
  | x :: l', S j => x :: update_nth j f l'
  end.

(** An assignment through a reference: the designated element is changed
    in place, which every holder of the tree sees. *)
Fixpoint update_at (p : path) (f : Element -> Element) (e : Element) : Element :=
  match p with
  | [] => f e
  | i :: p' =>
      mkElement (tag e) (attrib e) (text e) (tail e)
                (update_nth i (update_at p' f) (children e))
  end.

Definition set_text (v : pystr) (e : Element) : Element :=
  mkElement (tag e) (attrib e) (Some v) (tail e) (children e).

Definition set_tail (v : pystr) (e : Element) : Element :=
  mkElement (tag e) (attrib e) (text e) (Some v) (children e).

Definition set_attrib (k v : pystr) (e : Element) : Element :=
  mkElement (tag e) (dict_set (attrib e) k v) (text e) (tail e) (children e).

(** ** Collector *)

(** [clean_text] *)
Definition clean_text (text : pystr) : pystr :=
  if truthy text then replace text [ELLIPSIS] (py "...") else text.

(** The sentinels the script stores for element text and tail. *)
Definition TEXT : pystr := py "text".
Definition TAIL : pystr := py "tail".

(** [['name', 'id', 'identifier']] *)
Definition identifier_attrs : list pystr := [py "name"; py "id"; py "identifier"].

(** [x in l] on a list of strings. *)
Definition str_in (x : pystr) (l : list pystr) : bool := existsb (str_eqb x) l.

(** The conditions of the three [if]s of [collect_from_element]. *)
Definition text_ok (v : option pystr) : bool :=
  match v with
  | None => false
  | Some s => truthy s && truthy (strip s) && negb (contains [PERCENT] s)
  end.

Definition attr_ok (attr_name attr_value : pystr) : bool :=
  truthy attr_value && truthy (strip attr_value)
  && negb (str_in attr_name identifier_attrs)
  && negb (contains [PERCENT] attr_value).

(** What one [append] puts on [texts_to_translate]. *)
Definition text_units (p : path) (e : Element) : list TranslationUnit :=
  match text e with
  | Some s => if text_ok (text e) then [(clean_text (strip s), p, TEXT)] else []
  | None => []
  end.

Definition tail_units (p : path) (e : Element) : list TranslationUnit :=
  match tail e with
  | Some s => if text_ok (tail e) then [(clean_text (strip s), p, TAIL)] else []
  | None => []
  end.

(** The loop over [elem.attrib.items()]. *)
Fixpoint attr_units (p : path) (d : list (pystr * pystr)) : list TranslationUnit :=
  match d with
  | [] => []
  | (attr_name, attr_value) :: d' =>
      (if attr_ok attr_name attr_value
       then [(clean_text (strip attr_value), p, attr_name)]
       else [])
      ++ attr_units p d'
  end.

(** The appends of one call of [collect_from_element], children apart. *)
Definition own_units (p : path) (e : Element) : list TranslationUnit :=
  text_units p e ++ tail_units p e ++ attr_units p (attrib e).

(** [collect_from_element]: the element's own text, tail and attributes,
    then its children in order. [p] is the reference to [elem]. *)
Fixpoint collect_from_element (p : path) (elem : Element) : list TranslationUnit :=
  own_units p elem ++
  (fix children_units (i : nat) (cs : list Element) : list TranslationUnit :=
     match cs with
     | [] => []
     | child :: cs' => collect_from_element (p ++ [i]) child ++ children_units (S i) cs'
     end) 0 (children elem).

(** [collect_translatable_text] *)
Definition collect_translatable_text (element : Element) : list TranslationUnit :=
  collect_from_element [] element.

(** ** Writer *)

(** One turn of the update loop of [translate_xml_to_urdu]. *)
Definition write_unit (root : Element) (ut : TranslationUnit * pystr) : Element :=
  let '((_, element, attr_name), translated_text) := ut in
  if str_eqb attr_name TEXT then update_at element (set_text translated_text) root
  else if str_eqb attr_name TAIL then update_at element (set_tail translated_text) root
  else update_at element (set_attrib attr_name translated_text) root.

(** The whole loop over [zip(translations_needed, translated_texts)]. *)
Definition update_xml (root : Element) (translations_needed : list TranslationUnit)
    (translated_texts : list pystr) : Element :=
  fold_left write_unit (combine translations_needed translated_texts) root.

(** ** What the script takes from its environment *)

(** A result object of the translation service; the script reads [.text]. *)
Record Translated : Type := mkTranslated { origin : pystr; tr_text : pystr }.

(** What [translator.translate(batch, dest='ur', src='en')] can do: return a
    list of results, return one result that is not a list, or raise. *)
Inductive response : Type :=
  | Results (results : list Translated)
  | Result (result : Translated)
  | Raises (message : pystr).

(** [datetime.now()] *)
Record datetime : Type := mkDatetime {
  year : nat; month : nat; day : nat; hour : nat; minute : nat; second : nat
}.

(** The services of the interpreter, the file system and the network:
    - [translator k batch]: the answer of the [k]-th call (from 0) of
      [Translator.translate] in a run, made with [batch];
    - [now]: the clock at the time of the run;
    - [path_exists]: [os.path.exists];
    - [str_lower]: [str.lower], the interpreter's Unicode case mapping;
    - [parse_xml]: opening and parsing a file, an error message when either
      raises;
    - [makedirs_error]: the message of the exception when creating a
      directory raises;
    - [write_error file root]: the message of the exception when
      [tree.write] of the tree [root] to [file] raises;
    - [pretty_error file root]: the message of the exception when the
      pretty-printing pass raises: reading [file] back, parsing its text,
      the serialisation of [root], with [minidom], or writing the re-indented
      text over it. *)
Record Runtime : Type := mkRuntime {
  translator : nat -> list pystr -> response;
  now : datetime;
  path_exists : pystr -> bool;
  str_lower : pystr -> pystr;
  parse_xml : pystr -> pystr + Element;
  makedirs_error : pystr -> option pystr;
  write_error : pystr -> Element -> option pystr;
  pretty_error : pystr -> Element -> option pystr
}.

(** What a run does, in order. [WriteXml file root] is [tree.write]: the
    output file written with the serialisation of the tree [root].
    [PrettyPrint file root] is the pass that follows: the file, which holds
    the serialisation of [root], is read back, parsed with [minidom] and
    overwritten with the output of [toprettyxml(indent="  ")]. The text the
    file holds in the end is [minidom]'s re-indented one, with white space
    added around the nodes; it is not modelled further. An event followed by
    the message of an error is the call that raised. *)
Inductive event : Type :=
  | Print (line : pystr)
  | Sleep (seconds : nat)
  | Translate (batch : list pystr) (dest src : pystr)
  | ParseXml (file : pystr)
  | Makedirs (dir : pystr)
  | WriteXml (file : pystr) (root : Element)
  | PrettyPrint (file : pystr) (root : Element).

(** ** Translator adapter *)

(** [range(0, n, step)] for a positive [step]. *)
Definition py_range (n step : nat) : list nat :=
  List.map (fun k => k * step) (seq 0 ((n + step - 1) / step)).

(** [texts[i:i + batch_size]] *)
Definition batch_at (texts : list pystr) (i batch_size : nat) : list pystr :=
  firstn batch_size (skipn i texts).

(** The two progress lines of [batch_translate]. *)
Definition translated_line (i n batch_size : nat) : pystr :=
  py "Translated batch " ++ str_of_nat (i / batch_size + 1)
  ++ py " of " ++ str_of_nat ((n + batch_size - 1) / batch_size).

Definition error_line (i batch_size : nat) (message : pystr) : pystr :=
  py "Error translating batch " ++ str_of_nat (i / batch_size + 1)
  ++ py ": " ++ message.

(** The body of the [for] loop of [batch_translate] for the batch that
    starts at [i]: the state is the list [translations] and the trace. The
    call made at [i] is the [i // batch_size]-th of the run. *)
Definition batch_step (translator : nat -> list pystr -> response)
    (texts : list pystr) (batch_size : nat)
    (st : list pystr * list event) (i : nat) : list pystr * list event :=
  let '(translations, trace) := st in
  let batch := batch_at texts i batch_size in
  let call := Translate batch (py "ur") (py "en") in
  match translator (i / batch_size) batch with
  | Raises message =>
      (translations ++ batch,
       trace ++ [call; Print (error_line i batch_size message)])
  | Results results =>
      (translations ++ List.map tr_text results,
       trace ++ [call; Print (translated_line i (length texts) batch_size); Sleep 1])
  | Result result =>
      (translations ++ List.map tr_text [result],
       trace ++ [call; Print (translated_line i (length texts) batch_size); Sleep 1])
  end.

(** [batch_translate]: the translations and what the call did. A
    [batch_size] of 0 makes [range] raise [ValueError], which nothing in the
    function catches ([None]). *)
Definition batch_translate (texts : list pystr)
    (translator : nat -> list pystr -> response) (batch_size : nat)
    : option (list pystr * list event) :=
  match batch_size with
  | O => None
  | S _ =>
      Some (fold_left (batch_step translator texts batch_size)
                      (py_range (length texts) batch_size) ([], []))
  end.

(** The default value of the parameter [batch_size]. *)
Definition DEFAULT_BATCH_SIZE : nat := 100.

(** ** Paths and time stamps *)

(** The loop of [genericpath._splitext] that passes over leading dots of the
    file name: whether [name], the characters between the last separator
    and the last dot, has a character that is not a dot. *)
Fixpoint has_non_dot (name : pystr) : bool :=
  match name with
  | [] => false
  | c :: name' => if N.eqb c DOT then has_non_dot name' else true
  end.

(** [os.path.splitext] of [posixpath]. *)
Definition splitext (p : pystr) : pystr * pystr :=
  let sepIndex := rfind p SLASH in
  let dotIndex := rfind p DOT in
  if (sepIndex <? dotIndex)%Z
     && has_non_dot (slice_from (slice_to p dotIndex) (sepIndex + 1)%Z)
  then (slice_to p dotIndex, slice_from p dotIndex)
  else (p, []).

(** [s.rstrip('/')] *)
Definition rstrip_sep (s : pystr) : pystr :=
  rev ((fix drop (l : pystr) : pystr :=
          match l with
          | [] => []
          | c :: l' => if N.eqb c SLASH then drop l' else l
          end) (rev s)).

(** [os.path.dirname] of [posixpath]. *)
Definition dirname (p : pystr) : pystr :=
  let i := (rfind p SLASH + 1)%Z in
  let head := slice_to p i in
  if truthy head && negb (forallb (N.eqb SLASH) head)
  then rstrip_sep head
  else head.

(** [dt.strftime('%Y%m%d_%H%M%S')] *)
Definition strftime_stamp (dt : datetime) : pystr :=
  zero_padded 4 (year dt) ++ zero_padded 2 (month dt) ++ zero_padded 2 (day dt)
  ++ py "_"
  ++ zero_padded 2 (hour dt) ++ zero_padded 2 (minute dt) ++ zero_padded 2 (second dt).

(** The output file name the script makes up when it is given none. *)
Definition default_output_file (input_file : pystr) (dt : datetime) : pystr :=
  fst (splitext input_file) ++ py "_urdu_" ++ strftime_stamp dt ++ py ".xml".

(** ** The pipeline *)

(** How a call ends: it returns the output path, or [sys.exit(code)]. *)
Inductive outcome : Type :=
  | Returned (output_file : pystr)
  | Exited (code : Z).

(** The [except Exception] handler of [translate_xml_to_urdu]. *)
Definition error_exit (trace : list event) (message : pystr)
    : list event * outcome :=
  (trace ++ [Print (py "Error occurred: " ++ message)], Exited 1).

(** [tree.write], then the pretty-printing pass over the written file. *)
Definition write_file (rt : Runtime) (trace : list event)
    (output_file : pystr) (root : Element) : list event * outcome :=
  match write_error rt output_file root with
  | Some message => error_exit (trace ++ [WriteXml output_file root]) message
  | None =>
      match pretty_error rt output_file root with
      | Some message =>
          error_exit (trace ++ [WriteXml output_file root;
                                PrettyPrint output_file root]) message
      | None =>
          (trace ++ [WriteXml output_file root;
                     PrettyPrint output_file root;
                     Print (py "Translation completed. Saved to: " ++ output_file)],
           Returned output_file)
      end
  end.

(** The last part of [translate_xml_to_urdu]: the output directory is
    created when it is named and missing, then the file is written. *)
Definition write_output (rt : Runtime) (trace : list event)
    (output_file : pystr) (root : Element) : list event * outcome :=
  let output_dir := dirname output_file in
  if truthy output_dir && negb (path_exists rt output_dir) then
    match makedirs_error rt output_dir with
    | Some message => error_exit (trace ++ [Makedirs output_dir]) message
    | None => write_file rt (trace ++ [Makedirs output_dir]) output_file root
    end
  else write_file rt trace output_file root.

(** [translate_xml_to_urdu] *)
Definition translate_xml_to_urdu (rt : Runtime) (input_file : pystr)
    (output_file : option pystr) : list event * outcome :=
  let '(output_file, trace0) :=
    match output_file with
    | None =>
        let f := default_output_file input_file (now rt) in
        (f, [Print (py "No output file specified. Will save to: " ++ f)])
    | Some f => (f, [])
    end in
  match parse_xml rt input_file with
  | inl message => error_exit (trace0 ++ [ParseXml input_file]) message
  | inr root =>
      let trace1 :=
        trace0 ++ [ParseXml input_file; Print (py "Collecting translatable text...")] in
      let translations_needed := collect_translatable_text root in
      match translations_needed with
      | [] =>
          (trace1 ++ [Print (py "No translatable text found in the XML file.")],
           Returned output_file)
      | _ :: _ =>
          let trace2 :=
            trace1 ++ [Print (py "Found " ++ str_of_nat (length translations_needed)
                              ++ py " texts to translate")] in
          let texts_to_translate := List.map unit_text translations_needed in
          let trace3 := trace2 ++ [Print (py "Starting batch translation...")] in
          match batch_translate texts_to_translate (translator rt) DEFAULT_BATCH_SIZE with
          | None => error_exit trace3 (py "range() arg 3 must not be zero")
          | Some (translated_texts, calls) =>
              let trace4 :=
                trace3 ++ calls ++ [Print (py "Updating XML with translations...")] in
              let root' := update_xml root translations_needed translated_texts in
              write_output rt trace4 output_file root'
          end
      end
  end.

(** The lines of the usage message of [main]. *)
Definition usage : list event :=
  List.map Print
    [py "Usage: python script.py input.xml [output.xml]";
     [10%N] ++ py "Notes:";
     py "- If output.xml is not provided, a new file will be created";
     py "  with format: inputname_urdu_YYYYMMDD_HHMMSS.xml";
     py "- Strings containing format specifiers (%) will not be translated";
     [10%N] ++ py "Before running this script, make sure to:";
     py "1. Install required library:";
     py "   pip install googletrans==3.1.0a0"].

(** [main], on [sys.argv]: the trace and the exit status of the process
    (0 when [main] returns). *)
Definition main (rt : Runtime) (argv : list pystr) : list event * Z :=
  if length argv <? 2 then (usage, 1%Z)
  else
    let input_file := nth 1 argv [] in
    let output_file := if 2 <? length argv then nth_error argv 2 else None in
    if negb (path_exists rt input_file) then
      ([Print (py "Error: Input file '" ++ input_file ++ py "' not found.")], 1%Z)
    else if negb (endswith (str_lower rt input_file) (py ".xml")) then
      ([Print (py "Error: Input file must be an XML file.")], 1%Z)
    else
      match translate_xml_to_urdu rt input_file output_file with
      | (trace, Returned _) => (trace, 0%Z)
      | (trace, Exited code) => (trace, code)
      end.

(** Whether an event is more than a message: reading the input, calling
    the translation service, pausing, or touching the output. *)
Definition is_processing (ev : event) : bool :=
  match ev with
  | Print _ => false
  | _ => true
  end.

(** * Properties *)

(** ** Strings *)

Lemma str_eqb_eq (a b : pystr) : str_eqb a b = true <-> a = b.
Proof.
  revert b; induction a as [|x a IH]; intros [|y b]; simpl;
    try (split; [discriminate | congruence]); try tauto.
  rewrite andb_true_iff, N.eqb_eq, IH.
  split; [intros [-> ->]; reflexivity | intros H; injection H; auto].
Qed.

Lemma str_eqb_refl (a : pystr) : str_eqb a a = true.
Proof. apply str_eqb_eq; reflexivity. Qed.

Lemma str_eqb_neq (a b : pystr) : str_eqb a b = false <-> a <> b.
Proof.
  rewrite <- str_eqb_eq. destruct (str_eqb a b); split; congruence.
Qed.

Lemma str_in_In (x : pystr) (l : list pystr) : str_in x l = true <-> In x l.
Proof.
  unfold str_in. rewrite existsb_exists. split.
  - intros (y & Hy & E). apply str_eqb_eq in E. subst; assumption.
  - intros H. exists x. split; [assumption | apply str_eqb_refl].
Qed.

(** ['c' in s] for one character is membership. *)
Lemma contains_char (c : N) (s : pystr) : contains [c] s = true <-> In c s.
Proof.
  induction s as [|x s IH]; simpl.
  - split; [discriminate | tauto].
  - rewrite andb_true_r, orb_true_iff, N.eqb_eq, IH.
    split; intros [H | H]; auto.
Qed.

Lemma truthy_nonempty (s : pystr) : truthy s = true <-> s <> [].
Proof. destruct s; simpl; split; congruence. Qed.

Lemma lstrip_nil_inv (s : pystr) : lstrip s <> [] -> s <> [].
Proof. destruct s; simpl; congruence. Qed.

Lemma strip_nonempty (s : pystr) : strip s <> [] -> s <> [].
Proof.
  unfold strip, rstrip. intros H E. subst s. apply H. reflexivity.
Qed.

(** The replacement of one character, character by character: what the
    specification calls replacing every occurrence. *)
Definition substitute_char (c : N) (new : pystr) (s : pystr) : pystr :=
  flat_map (fun x => if N.eqb x c then new else [x]) s.

Lemma replace_char (s : pystr) (c : N) (new : pystr) :
  replace s [c] new = substitute_char c new s.
Proof.
  unfold replace, substitute_char.
  induction s as [|x s IH]; simpl; [reflexivity|].
  rewrite andb_true_r, N.eqb_sym.
  destruct (N.eqb x c); simpl; rewrite IH; reflexivity.
Qed.

(** The normal form the specification gives to a queued string. *)
Definition ellipsis_to_dots (s : pystr) : pystr :=
  substitute_char ELLIPSIS (py "...") s.

Lemma clean_text_spec (s : pystr) : clean_text s = ellipsis_to_dots s.
Proof.
  unfold clean_text, ellipsis_to_dots.
  destruct s as [|x s]; [reflexivity|].
  cbn [truthy]. apply replace_char.
Qed.

Lemma ellipsis_to_dots_clean (s : pystr) : ~ In ELLIPSIS (ellipsis_to_dots s).
Proof.
  unfold ellipsis_to_dots, substitute_char.
  induction s as [|x s IH]; simpl; [tauto|].
  intros H. apply in_app_or in H. destruct H as [H | H]; [|auto].
  destruct (N.eqb x ELLIPSIS) eqn:E.
  - simpl in H. unfold ELLIPSIS in H.
    repeat (destruct H as [H | H]; [discriminate H|]). exact H.
  - apply N.eqb_neq in E. destruct H as [H | []]. congruence.
Qed.

(** ** Trees *)

(** Induction on a document, with the children as induction hypotheses. *)
Section Element_induction.

Variable P : Element -> Prop.

Hypothesis step : forall tg at_ tx tl ch,
    Forall P ch -> P (mkElement tg at_ tx tl ch).

Fixpoint Element_tree_ind (e : Element) : P e :=
  match e with
  | mkElement tg at_ tx tl ch =>
      step tg at_ tx tl ch
        ((fix all (l : list Element) : Forall P l :=
            match l with
            | [] => Forall_nil P
            | c :: l' => Forall_cons c (Element_tree_ind c) (all l')
            end) ch)
  end.

End Element_induction.

(** The loop [for child in elem] of [collect_from_element], from the
    child of index [i] on. *)
Fixpoint collect_children (p : path) (i : nat) (cs : list Element)
    : list TranslationUnit :=
  match cs with
  | [] => []
  | child :: cs' => collect_from_element (p ++ [i]) child ++ collect_children p (S i) cs'
  end.

Lemma collect_from_element_eq (p : path) (e : Element) :
  collect_from_element p e = own_units p e ++ collect_children p 0 (children e).
Proof.
  destruct e as [tg at_ tx tl ch]. cbn [collect_from_element children].
  f_equal. generalize 0. induction ch as [|c ch IH]; intros i; [reflexivity|].
  cbn [collect_children]. rewrite <- IH. reflexivity.
Qed.

Lemma in_collect_children (p : path) (u : TranslationUnit) (cs : list Element) :
  forall i, In u (collect_children p i cs) <->
    exists j c, nth_error cs j = Some c /\ In u (collect_from_element (p ++ [i + j]) c).
Proof.
  induction cs as [|c cs IH]; intros i; cbn [collect_children].
  - split; [intros [] | intros ([|j] & c & H & _); discriminate H].
  - rewrite in_app_iff, IH. split.
    + intros [H | (j & c' & Hj & H)].
      * exists 0, c. rewrite Nat.add_0_r. auto.
      * exists (S j), c'. rewrite Nat.add_succ_r. auto.
    + intros ([|j] & c' & Hj & H).
      * injection Hj as <-. rewrite Nat.add_0_r in H. auto.
      * right. exists j, c'. rewrite Nat.add_succ_r in H. auto.
Qed.

(** A unit is collected exactly when it is one of the own units of an
    element of the tree, with the reference to that element. *)
Lemma in_collect_from_element (u : TranslationUnit) (e : Element) :
  forall q, In u (collect_from_element q e) <->
    exists p e', get_elem e p = Some e' /\ In u (own_units (q ++ p) e').
Proof.
  induction e as [tg at_ tx tl ch IH] using Element_tree_ind. intros q.
  rewrite collect_from_element_eq, in_app_iff, in_collect_children.
  cbn [children]. split.
  - intros [H | (j & c & Hj & H)].
    + exists [], (mkElement tg at_ tx tl ch). rewrite app_nil_r. auto.
    + rewrite Forall_forall in IH. cbn [Nat.add] in H.
      apply (IH c (nth_error_In _ _ Hj)) in H. destruct H as (p & e' & Hp & H).
      exists (j :: p), e'. cbn [get_elem children]. rewrite Hj.
      rewrite <- app_assoc in H. auto.
  - intros ([|j p] & e' & Hp & H).
    + injection Hp as <-. rewrite app_nil_r in H. auto.
    + right. cbn [get_elem children] in Hp.
      destruct (nth_error ch j) as [c|] eqn:Hj; [|discriminate].
      exists j, c. split; [exact Hj|]. cbn [Nat.add].
      rewrite Forall_forall in IH. apply (IH c (nth_error_In _ _ Hj)).
      exists p, e'. rewrite <- app_assoc. auto.
Qed.

Lemma in_collect (u : TranslationUnit) (root : Element) :
  In u (collect_translatable_text root) <->
    exists p e, get_elem root p = Some e /\ In u (own_units p e).
Proof. unfold collect_translatable_text. apply in_collect_from_element. Qed.

(** *** The own units of an element *)

(** The condition the specification puts on a candidate string. *)
Definition accepted (v : pystr) : Prop := strip v <> [] /\ ~ In PERCENT v.

Lemma text_ok_accepted (v : pystr) : text_ok (Some v) = true <-> accepted v.
Proof.
  unfold text_ok, accepted.
  rewrite !andb_true_iff, negb_true_iff, !truthy_nonempty.
  rewrite <- not_true_iff_false, contains_char.
  split; [tauto | intros [H1 H2]; auto using strip_nonempty].
Qed.

Lemma attr_ok_accepted (k v : pystr) :
  attr_ok k v = true <-> accepted v /\ ~ In k identifier_attrs.
Proof.
  unfold attr_ok, accepted.
  rewrite !andb_true_iff, !negb_true_iff, !truthy_nonempty.
  rewrite <- !not_true_iff_false, contains_char, str_in_In.
  split; [tauto | intros [[H1 H2] H3]; auto using strip_nonempty].
Qed.

Lemma in_text_units (u : TranslationUnit) (p : path) (e : Element) :
  In u (text_units p e) <->
    exists v, text e = Some v /\ accepted v /\ u = (clean_text (strip v), p, TEXT).
Proof.
  unfold text_units. destruct (text e) as [v|].
  - destruct (text_ok (Some v)) eqn:E.
    + apply text_ok_accepted in E. simpl. split.
      * intros [<- | []]. eauto.
      * intros (v' & Hv & _ & ->). injection Hv as <-. auto.
    + split; [intros [] | intros (v' & Hv & A & _)].
      injection Hv as <-. apply text_ok_accepted in A. congruence.
  - split; [intros [] | intros (v' & Hv & _); discriminate].
Qed.

Lemma in_tail_units (u : TranslationUnit) (p : path) (e : Element) :
  In u (tail_units p e) <->
    exists v, tail e = Some v /\ accepted v /\ u = (clean_text (strip v), p, TAIL).
Proof.
  unfold tail_units. destruct (tail e) as [v|].
  - destruct (text_ok (Some v)) eqn:E.
    + apply text_ok_accepted in E. simpl. split.
      * intros [<- | []]. eauto.
      * intros (v' & Hv & _ & ->). injection Hv as <-. auto.
    + split; [intros [] | intros (v' & Hv & A & _)].
      injection Hv as <-. apply text_ok_accepted in A. congruence.
  - split; [intros [] | intros (v' & Hv & _); discriminate].
Qed.

Lemma in_attr_units (u : TranslationUnit) (p : path) (d : list (pystr * pystr)) :
  In u (attr_units p d) <->
    exists k v, In (k, v) d /\ accepted v /\ ~ In k identifier_attrs
                /\ u = (clean_text (strip v), p, k).
Proof.
  induction d as [|[k v] d IH]; cbn [attr_units].
  - split; [intros [] | intros (k & v & [] & _)].
  - rewrite in_app_iff, IH. split.
    + intros [H | (k' & v' & Hin & H)].
      * destruct (attr_ok k v) eqn:E; [|destruct H].
        apply attr_ok_accepted in E. destruct H as [<- | []].
        destruct E as [A Hk]. exists k, v.
        split; [left; reflexivity | auto].
      * destruct H as (A & Hk & E). exists k', v'.
        split; [right; assumption | auto].
    + intros (k' & v' & [Hin | Hin] & A & Hk & ->).
      * injection Hin as <- <-.
        rewrite (proj2 (attr_ok_accepted k v) (conj A Hk)). left. left. reflexivity.
      * right. exists k', v'. auto.
Qed.

(** ** Collector: which strings are collected, and in which form *)

(** The unit [u] comes from a candidate string of the element [e] that the
    reference [p] designates: its text, its tail, or the value of one of
    its attributes. *)
Definition from_text (p : path) (e : Element) (u : TranslationUnit) : Prop :=
  exists v, text e = Some v /\ accepted v /\ u = (clean_text (strip v), p, TEXT).

Definition from_tail (p : path) (e : Element) (u : TranslationUnit) : Prop :=
  exists v, tail e = Some v /\ accepted v /\ u = (clean_text (strip v), p, TAIL).

Definition from_attribute (p : path) (e : Element) (u : TranslationUnit) : Prop :=
  exists k v, In (k, v) (attrib e) /\ accepted v /\ ~ In k identifier_attrs
              /\ u = (clean_text (strip v), p, k).

Lemma in_own_units (u : TranslationUnit) (p : path) (e : Element) :
  In u (own_units p e) <-> from_text p e u \/ from_tail p e u \/ from_attribute p e u.
Proof.
  unfold own_units. rewrite !in_app_iff, in_text_units, in_tail_units, in_attr_units.
  reflexivity.
Qed.

(** ** Translator adapter *)

(** What the adapter appends for the batch of index [k]: the texts of the
    results, or the batch itself when the call raises. *)
Definition batch_output (translator : nat -> list pystr -> response)
    (texts : list pystr) (batch_size k : nat) : list pystr :=
  let batch := batch_at texts (k * batch_size) batch_size in
  match translator k batch with
  | Raises _ => batch
  | Results results => List.map tr_text results
  | Result result => [tr_text result]
  end.

(** The assumption on the service: one result for every string of a batch. *)
Definition one_result_per_input (translator : nat -> list pystr -> response) : Prop :=
  forall k batch,
    match translator k batch with
    | Results results => length results = length batch
    | Result _ => length batch = 1
    | Raises _ => True
    end.

Lemma batch_step_fst translator texts batch_size st k :
  0 < batch_size ->
  fst (batch_step translator texts batch_size st (k * batch_size))
  = fst st ++ batch_output translator texts batch_size k.
Proof.
  intros Hb. destruct st as [translations trace].
  unfold batch_step, batch_output.
  rewrite Nat.div_mul by lia.
  destruct (translator k (batch_at texts (k * batch_size) batch_size)); reflexivity.
Qed.

Lemma fold_batch_step_fst translator texts batch_size ks :
  0 < batch_size ->
  forall st,
    fst (fold_left (batch_step translator texts batch_size)
                   (List.map (fun k => k * batch_size) ks) st)
    = fst st ++ concat (List.map (batch_output translator texts batch_size) ks).
Proof.
  intros Hb. induction ks as [|k ks IH]; intros st; cbn [List.map fold_left concat].
  - rewrite app_nil_r. reflexivity.
  - rewrite IH, batch_step_fst by assumption. rewrite app_assoc. reflexivity.
Qed.

Lemma batch_translate_output translator texts batch_size :
  0 < batch_size ->
  exists trace,
    batch_translate texts translator batch_size
    = Some (concat (List.map (batch_output translator texts batch_size)
                             (seq 0 ((length texts + batch_size - 1) / batch_size))),
            trace).
Proof.
  intros Hb. unfold batch_translate. destruct batch_size as [|b]; [lia|].
  set (bs := S b) in *. unfold py_range.
  pose proof (fold_batch_step_fst translator texts bs
                (seq 0 ((length texts + bs - 1) / bs)) Hb ([], [])) as H.
  destruct (fold_left _ _ _) as [out trace]. cbn [fst] in H. subst out.
  exists trace. reflexivity.
Qed.

(** Blocks put end to end: when the blocks before the [q]-th all have [b]
    elements, element [r] of block [q] is element [q * b + r] of the whole. *)
Lemma nth_error_concat_blocks {A : Type} (f : nat -> list A) (b : nat) :
  forall q r a m,
    (forall k, k < q -> length (f (a + k)) = b) ->
    q < m -> r < length (f (a + q)) ->
    nth_error (concat (List.map f (seq a m))) (q * b + r) = nth_error (f (a + q)) r.
Proof.
  induction q as [|q IH]; intros r a m Hfull Hq Hr;
    (destruct m as [|m]; [lia|]); cbn [seq List.map concat].
  - rewrite Nat.add_0_r in *. cbn [Nat.mul Nat.add].
    rewrite nth_error_app1 by assumption. reflexivity.
  - pose proof (Hfull 0 ltac:(lia)) as H0. rewrite Nat.add_0_r in H0.
    rewrite nth_error_app2 by (rewrite H0; cbn [Nat.mul]; lia).
    rewrite H0. replace (S q * b + r - b) with (q * b + r) by (cbn [Nat.mul]; lia).
    rewrite (IH r (S a) m).
    + f_equal. f_equal. lia.
    + intros k Hk. replace (S a + k) with (a + S k) by lia. apply Hfull. lia.
    + lia.
    + replace (S a + q) with (a + S q) by lia. assumption.
Qed.

Lemma length_concat_blocks {A : Type} (f : nat -> list A) (b n : nat) :
  (forall k, length (f k) = Nat.min b (n - k * b)) ->
  forall m, length (concat (List.map f (seq 0 m))) = Nat.min (m * b) n.
Proof.
  intros Hf. induction m as [|m IH].
  - reflexivity.
  - rewrite seq_S, map_app, concat_app, length_app, IH. cbn [List.map concat Nat.add].
    rewrite app_nil_r, Hf. cbn [Nat.mul]. lia.
Qed.

Lemma length_batch_at texts i batch_size :
  length (batch_at texts i batch_size) = Nat.min batch_size (length texts - i).
Proof. unfold batch_at. rewrite length_firstn, length_skipn. reflexivity. Qed.

Lemma nth_error_batch_at texts i batch_size r :
  r < batch_size ->
  nth_error (batch_at texts i batch_size) r = nth_error texts (i + r).
Proof.
  intros Hr. unfold batch_at.
  rewrite nth_error_firstn.
  destruct (Nat.ltb_spec r batch_size); [|lia].
  apply nth_error_skipn.
Qed.

Lemma length_batch_output translator texts batch_size k :
  one_result_per_input translator ->
  length (batch_output translator texts batch_size k)
  = Nat.min batch_size (length texts - k * batch_size).
Proof.
  intros Hw. unfold batch_output.
  specialize (Hw k (batch_at texts (k * batch_size) batch_size)).
  destruct (translator k _).
  - rewrite length_map, Hw. apply length_batch_at.
  - cbn [length]. rewrite <- Hw. apply length_batch_at.
  - apply length_batch_at.
Qed.

Lemma ceil_div_covers n b : 0 < b -> n <= (n + b - 1) / b * b.
Proof.
  intros Hb. pose proof (Nat.div_mod_eq (n + b - 1) b) as E.
  pose proof (Nat.mod_upper_bound (n + b - 1) b ltac:(lia)) as U. nia.
Qed.

Lemma map_fst_combine {A B : Type} (l : list A) (l' : list B) :
  length l = length l' -> List.map fst (combine l l') = l.
Proof.
  revert l'. induction l as [|x l IH]; intros [|y l'] H;
    try discriminate; [reflexivity|].
  cbn [combine List.map fst]. f_equal. apply IH. injection H. auto.
Qed.

(** Two services to run the adapter on: one that answers every batch with
    one result per string, and one that is down. *)
Definition marking_translator : nat -> list pystr -> response :=
  fun _ batch => Results (List.map (fun s => mkTranslated s (py "ur:" ++ s)) batch).

Definition failing_translator : nat -> list pystr -> response :=
  fun _ _ => Raises (py "timed out").

Lemma marking_translator_ok : one_result_per_input marking_translator.
Proof. intros k batch. cbn. apply length_map. Defined.

(** C1. With a service that returns one result per string of a batch, the
    adapter returns as many strings as it is given, and the string at an
    index is the answer for the input string at that index: the string
    itself when the call for its batch raised, the text of the result at
    the same place of the batch otherwise. So the units and the translated
    strings that the Writer zips have the same length and no unit is left
    out. *)
Theorem batch_translate_lock_step
    (translator : nat -> list pystr -> response) (texts : list pystr)
    (batch_size : nat) :
  0 < batch_size ->
  one_result_per_input translator ->
  exists out trace,
    batch_translate texts translator batch_size = Some (out, trace)
    /\ length out = length texts
    /\ (forall j s,
           nth_error texts j = Some s ->
           let batch := batch_at texts (j / batch_size * batch_size) batch_size in
           nth_error batch (j mod batch_size) = Some s
           /\ match translator (j / batch_size) batch with
              | Raises _ => nth_error out j = Some s
              | Results results =>
                  exists t, nth_error results (j mod batch_size) = Some t
                            /\ nth_error out j = Some (tr_text t)
              | Result result => nth_error out j = Some (tr_text result)
              end)
    /\ (forall units : list TranslationUnit,
           texts = List.map unit_text units ->
           length out = length units
           /\ List.map fst (combine units out) = units).
Proof.
  intros Hb Hw.
  destruct (batch_translate_output translator texts batch_size Hb) as [trace E].
  set (n := length texts) in *. set (m := (n + batch_size - 1) / batch_size) in *.
  set (out := concat _) in E.
  assert (Hlen : length out = n).
  { unfold out. rewrite (length_concat_blocks _ batch_size n).
    - pose proof (ceil_div_covers n batch_size Hb) as H. fold m in H. lia.
    - intros k. apply length_batch_output. assumption. }
  exists out, trace. split; [exact E|]. split; [exact Hlen|]. split.
  - intros j s Hj batch.
    assert (Hjn : j < n) by (apply nth_error_Some; congruence).
    pose proof (Nat.div_mod_eq j batch_size) as Ej.
    pose proof (Nat.mod_upper_bound j batch_size ltac:(lia)) as Hr.
    set (q := j / batch_size) in *. set (r := j mod batch_size) in *.
    assert (Hbatch : nth_error batch r = Some s).
    { unfold batch. rewrite nth_error_batch_at by assumption.
      replace (q * batch_size + r) with j by lia. exact Hj. }
    split; [exact Hbatch|].
    assert (Hout : nth_error out j
                   = nth_error (batch_output translator texts batch_size q) r).
    { replace j with (q * batch_size + r) at 1 by lia.
      unfold out. rewrite (nth_error_concat_blocks _ batch_size q r 0 m).
      - reflexivity.
      - intros k Hk. cbn [Nat.add]. rewrite length_batch_output by assumption.
        fold n. nia.
      - pose proof (ceil_div_covers n batch_size Hb) as H. fold m in H. nia.
      - cbn [Nat.add]. rewrite length_batch_output by assumption. fold n. nia. }
    unfold batch_output in Hout. fold batch in Hout.
    pose proof (Hw q batch) as Hq.
    destruct (translator q batch) as [results | result | message].
    + assert (Hrl : r < length results).
      { rewrite Hq. apply nth_error_Some. congruence. }
      destruct (nth_error results r) as [t|] eqn:Et;
        [|apply nth_error_None in Et; lia].
      exists t. split; [reflexivity|].
      rewrite Hout. apply map_nth_error. exact Et.
    + assert (r = 0).
      { assert (r < length batch) by (apply nth_error_Some; congruence). lia. }
      rewrite Hout. replace r with 0. reflexivity.
    + rewrite Hout. exact Hbatch.
  - intros units ->. revert Hlen. unfold n. rewrite length_map. intros Hlen.
    split; [exact Hlen|]. apply map_fst_combine. symmetry. exact Hlen.
Qed.

Lemma batch_translate_lock_step_witness :
  exists out trace,
    batch_translate [py "Save"; py "Open"; py "Close"] marking_translator 2
    = Some (out, trace)
    /\ length out = 3
    /\ (forall j s,
           nth_error [py "Save"; py "Open"; py "Close"] j = Some s ->
           let batch := batch_at [py "Save"; py "Open"; py "Close"] (j / 2 * 2) 2 in
           nth_error batch (j mod 2) = Some s
           /\ match marking_translator (j / 2) batch with
              | Raises _ => nth_error out j = Some s
              | Results results =>
                  exists t, nth_error results (j mod 2) = Some t
                            /\ nth_error out j = Some (tr_text t)
              | Result result => nth_error out j = Some (tr_text result)
              end)
    /\ (forall units : list TranslationUnit,
           [py "Save"; py "Open"; py "Close"] = List.map unit_text units ->
           length out = length units
           /\ List.map fst (combine units out) = units).
Proof.
  apply (@batch_translate_lock_step marking_translator
           [py "Save"; py "Open"; py "Close"] 2).
  - lia.
  - exact marking_translator_ok.
Defined.

(** ** Writer: assignments through references *)

Lemma nth_error_update_nth_same {A : Type} (f : A -> A) (l : list A) :
  forall i, nth_error (update_nth i f l) i = option_map f (nth_error l i).
Proof.
  induction l as [|x l IH]; intros [|i]; cbn; auto.
Qed.

Lemma nth_error_update_nth_other {A : Type} (f : A -> A) (l : list A) :
  forall i j, i <> j -> nth_error (update_nth i f l) j = nth_error l j.
Proof.
  induction l as [|x l IH]; intros [|i] [|j] H; cbn; auto; congruence.
Qed.

Lemma map_update_nth {A X : Type} (F : A -> X) (f : A -> A) (l : list A) :
  forall i, (forall c, nth_error l i = Some c -> F (f c) = F c) ->
            List.map F (update_nth i f l) = List.map F l.
Proof.
  induction l as [|x l IH]; intros [|i] H; cbn; auto.
  - rewrite (H x); reflexivity.
  - rewrite IH; auto.
Qed.

(** What is read through the reference that was assigned through. *)
Lemma get_update_same (g : Element -> Element) :
  forall p r, get_elem (update_at p g r) p = option_map g (get_elem r p).
Proof.
  induction p as [|i p IH]; intros r; [reflexivity|].
  cbn [update_at get_elem children].
  rewrite nth_error_update_nth_same.
  destruct (nth_error (children r) i); cbn; auto.
Qed.

(** An observation of an element that does not look at its children. *)
Definition own_field {X : Type} (obs : Element -> X) : Prop :=
  forall tg at_ tx tl ch ch',
    obs (mkElement tg at_ tx tl ch) = obs (mkElement tg at_ tx tl ch').

(** An assignment to a field of one element shows in no field of an element
    reached by another reference. *)
Lemma get_update_other {X : Type} (obs : Element -> X) (g : Element -> Element) :
  own_field obs ->
  (forall x, children (g x) = children x) ->
  forall p q r, p <> q ->
    option_map obs (get_elem (update_at p g r) q) = option_map obs (get_elem r q).
Proof.
  intros Hobs Hg. induction p as [|i p IH]; intros q r Hneq.
  - destruct q as [|j q]; [congruence|].
    cbn [update_at get_elem]. rewrite Hg. reflexivity.
  - cbn [update_at]. destruct q as [|j q].
    + cbn [get_elem option_map]. f_equal. destruct r. apply Hobs.
    + cbn [get_elem children]. destruct (Nat.eq_dec i j) as [<- | Hij].
      * rewrite nth_error_update_nth_same.
        destruct (nth_error (children r) i); cbn [option_map]; [|reflexivity].
        apply IH. congruence.
      * rewrite nth_error_update_nth_other by assumption. reflexivity.
Qed.

(** A quantity of a document that is computed from the tag, the attribute
    names and the same quantity of the children. *)
Definition structural {X : Type} (F : Element -> X) : Prop :=
  forall tg at_ at_' tx tx' tl tl' ch ch',
    List.map fst at_ = List.map fst at_' ->
    List.map F ch = List.map F ch' ->
    F (mkElement tg at_ tx tl ch) = F (mkElement tg at_' tx' tl' ch').

Lemma update_at_structural {X : Type} (F : Element -> X) (g : Element -> Element) :
  structural F ->
  forall p r,
    (forall x, get_elem r p = Some x -> F (g x) = F x) ->
    F (update_at p g r) = F r.
Proof.
  intros HF. induction p as [|i p IH]; intros r H.
  - apply H. reflexivity.
  - cbn [update_at]. destruct r as [tg at_ tx tl ch]. cbn [tag attrib text tail children].
    apply HF; [reflexivity|].
    apply map_update_nth. intros c Hc. apply IH.
    intros x Hx. apply H. cbn [get_elem children]. rewrite Hc. exact Hx.
Qed.

(** The document without its strings: tags, attribute names in order, and
    children in order. Two documents with the same skeleton have the same
    tag names, attribute names, child ordering and number of nodes. *)
Inductive Skeleton : Type :=
  | SNode (stag : pystr) (attr_names : list pystr) (schildren : list Skeleton).

Fixpoint skeleton (e : Element) : Skeleton :=
  match e with
  | mkElement tg at_ _ _ ch => SNode tg (List.map fst at_) (List.map skeleton ch)
  end.

Fixpoint count_nodes (e : Element) : nat :=
  match e with
  | mkElement _ _ _ _ ch => S (list_sum (List.map count_nodes ch))
  end.

Lemma skeleton_structural : structural skeleton.
Proof. intros tg a a' tx tx' tl tl' ch ch' Ha Hch. cbn. rewrite Ha, Hch. reflexivity. Qed.

Lemma count_nodes_structural : structural count_nodes.
Proof. intros tg a a' tx tx' tl tl' ch ch' Ha Hch. cbn. rewrite Hch. reflexivity. Qed.

(** The fields of the element a reference designates. *)
Definition tag_at (r : Element) (p : path) : option pystr :=
  option_map tag (get_elem r p).
Definition text_at (r : Element) (p : path) : option (option pystr) :=
  option_map text (get_elem r p).
Definition tail_at (r : Element) (p : path) : option (option pystr) :=
  option_map tail (get_elem r p).
Definition keys_at (r : Element) (p : path) : option (list pystr) :=
  option_map (fun e => List.map fst (attrib e)) (get_elem r p).
Definition attr_at (r : Element) (p : path) (k : pystr) : option (option pystr) :=
  option_map (fun e => dict_get (attrib e) k) (get_elem r p).

Lemma dict_set_keys (d : list (pystr * pystr)) (k v : pystr) :
  In k (List.map fst d) -> List.map fst (dict_set d k v) = List.map fst d.
Proof.
  induction d as [|[k' v'] d IH]; cbn; [tauto|].
  intros H. destruct (str_eqb k' k) eqn:E; [reflexivity|].
  cbn. f_equal. apply IH. destruct H as [H | H]; [|exact H].
  apply str_eqb_neq in E. congruence.
Qed.

Lemma dict_get_set_other (d : list (pystr * pystr)) (k k' v : pystr) :
  k' <> k -> dict_get (dict_set d k' v) k = dict_get d k.
Proof.
  intros Hk. induction d as [|[k0 v0] d IH]; cbn.
  - apply str_eqb_neq in Hk. rewrite Hk. reflexivity.
  - destruct (str_eqb k0 k') eqn:E; cbn.
    + apply str_eqb_eq in E. subst k0. apply str_eqb_neq in Hk. rewrite Hk.
      reflexivity.
    + rewrite IH. reflexivity.
Qed.

Lemma dict_get_In (d : list (pystr * pystr)) (k v : pystr) :
  dict_ok d -> In (k, v) d -> dict_get d k = Some v.
Proof.
  unfold dict_ok. induction d as [|[k0 v0] d IH]; cbn; [tauto|].
  intros Hnd [H | H].
  - injection H as -> ->. rewrite str_eqb_refl. reflexivity.
  - inversion Hnd as [|? ? Hnotin Hnd']; subst.
    destruct (str_eqb k0 k) eqn:E.
    + apply str_eqb_eq in E. subst k0. exfalso. apply Hnotin.
      apply (in_map fst) in H. exact H.
    + auto.
Qed.

(** The assignment one turn of the update loop makes on its element. *)
Definition assignment (attr_name translated_text : pystr) : Element -> Element :=
  if str_eqb attr_name TEXT then set_text translated_text
  else if str_eqb attr_name TAIL then set_tail translated_text
  else set_attrib attr_name translated_text.

Lemma write_unit_eq root s p k t :
  write_unit root ((s, p, k), t) = update_at p (assignment k t) root.
Proof.
  unfold write_unit, assignment.
  destruct (str_eqb k TEXT); [reflexivity|].
  destruct (str_eqb k TAIL); reflexivity.
Qed.

Lemma assignment_children k t x : children (assignment k t x) = children x.
Proof.
  unfold assignment.
  destruct (str_eqb k TEXT); [reflexivity|].
  destruct (str_eqb k TAIL); reflexivity.
Qed.

Lemma assignment_tag k t x : tag (assignment k t x) = tag x.
Proof.
  unfold assignment.
  destruct (str_eqb k TEXT); [reflexivity|].
  destruct (str_eqb k TAIL); reflexivity.
Qed.

Lemma assignment_text k t x :
  k <> TEXT -> text (assignment k t x) = text x.
Proof.
  intros H. apply str_eqb_neq in H. unfold assignment. rewrite H.
  destruct (str_eqb k TAIL); reflexivity.
Qed.

Lemma assignment_tail k t x :
  k <> TAIL -> tail (assignment k t x) = tail x.
Proof.
  intros H. apply str_eqb_neq in H. unfold assignment. rewrite H.
  destruct (str_eqb k TEXT); reflexivity.
Qed.

Lemma assignment_attr k t x k0 :
  k <> k0 \/ k0 = TEXT \/ k0 = TAIL ->
  dict_get (attrib (assignment k t x)) k0 = dict_get (attrib x) k0.
Proof.
  intros H. unfold assignment.
  destruct (str_eqb k TEXT) eqn:E1; [reflexivity|].
  destruct (str_eqb k TAIL) eqn:E2; [reflexivity|].
  cbn [set_attrib attrib]. apply dict_get_set_other.
  apply str_eqb_neq in E1, E2. intuition congruence.
Qed.

Lemma assignment_keys k t x :
  str_eqb k TEXT = true \/ str_eqb k TAIL = true \/ In k (List.map fst (attrib x)) ->
  List.map fst (attrib (assignment k t x)) = List.map fst (attrib x).
Proof.
  intros H. unfold assignment.
  destruct (str_eqb k TEXT) eqn:E1; [reflexivity|].
  destruct (str_eqb k TAIL) eqn:E2; [reflexivity|].
  cbn [set_attrib attrib]. apply dict_set_keys.
  destruct H as [H | [H | H]]; congruence.
Qed.

(** One turn of the loop shows in a field of the element at [q] only if it
    assigns to that field of that element. *)
Lemma write_unit_frame {X : Type} (obs : Element -> X) root s p k t q :
  own_field obs ->
  (p = q -> forall x, get_elem root p = Some x -> obs (assignment k t x) = obs x) ->
  option_map obs (get_elem (write_unit root ((s, p, k), t)) q)
  = option_map obs (get_elem root q).
Proof.
  intros Hobs H. rewrite write_unit_eq.
  destruct (list_eq_dec Nat.eq_dec p q) as [<- | Hpq].
  - rewrite get_update_same. specialize (H eq_refl).
    destruct (get_elem root p); cbn [option_map]; [|reflexivity].
    f_equal. apply H. reflexivity.
  - apply get_update_other; auto using assignment_children.
Qed.

Lemma own_field_tag : own_field tag.
Proof. intros tg a tx tl ch ch'. reflexivity. Qed.
Lemma own_field_text : own_field text.
Proof. intros tg a tx tl ch ch'. reflexivity. Qed.
Lemma own_field_tail : own_field tail.
Proof. intros tg a tx tl ch ch'. reflexivity. Qed.
Lemma own_field_keys : own_field (fun e => List.map fst (attrib e)).
Proof. intros tg a tx tl ch ch'. reflexivity. Qed.
Lemma own_field_attr k : own_field (fun e => dict_get (attrib e) k).
Proof. intros tg a tx tl ch ch'. reflexivity. Qed.

(** The whole loop, for a field no unit that refers to [q] is assigned to. *)
Lemma update_xml_frame {X : Type} (obs : Element -> X) (q : path) :
  own_field obs ->
  forall units translated root,
    (forall u t x, In u units -> unit_elem u = q ->
                   obs (assignment (unit_attr u) t x) = obs x) ->
    option_map obs (get_elem (update_xml root units translated) q)
    = option_map obs (get_elem root q).
Proof.
  intros Hobs. unfold update_xml.
  induction units as [|[[s p] k] units IH]; intros [|t ts] root H;
    cbn [combine fold_left]; try reflexivity.
  rewrite IH by (intros; apply H; simpl; auto).
  apply write_unit_frame; [assumption|].
  intros -> x _. apply (H (s, q, k) t x); simpl; auto.
Qed.

(** A unit whose slot is an attribute name refers to an element that has
    this attribute. *)
Definition valid_unit (root : Element) (u : TranslationUnit) : Prop :=
  str_eqb (unit_attr u) TEXT = false ->
  str_eqb (unit_attr u) TAIL = false ->
  exists ks, keys_at root (unit_elem u) = Some ks /\ In (unit_attr u) ks.

Lemma collected_units_valid root u :
  In u (collect_translatable_text root) -> valid_unit root u.
Proof.
  intros Hu. apply in_collect in Hu. destruct Hu as (p & e & Hp & Hu).
  apply in_own_units in Hu. intros E1 E2.
  destruct Hu as [(v & _ & _ & ->) | [(v & _ & _ & ->) | (k & v & Hin & _ & _ & ->)]];
    cbn [unit_attr unit_elem fst snd] in *.
  - rewrite str_eqb_refl in E1. discriminate.
  - rewrite str_eqb_refl in E2. discriminate.
  - exists (List.map fst (attrib e)). unfold keys_at. rewrite Hp. split; [reflexivity|].
    apply (in_map fst) in Hin. exact Hin.
Qed.

Lemma valid_unit_assignment root s p k t x :
  valid_unit root (s, p, k) -> get_elem root p = Some x ->
  List.map fst (attrib (assignment k t x)) = List.map fst (attrib x).
Proof.
  intros Hv Hx. apply assignment_keys.
  destruct (str_eqb k TEXT) eqn:E1; [auto|].
  destruct (str_eqb k TAIL) eqn:E2; [auto|].
  right; right. destruct (Hv E1 E2) as (ks & Hks & Hin).
  unfold keys_at in Hks. cbn [unit_elem fst snd] in Hks. rewrite Hx in Hks.
  injection Hks as <-. exact Hin.
Qed.

Lemma write_unit_keys root s p k t :
  valid_unit root (s, p, k) ->
  forall q, keys_at (write_unit root ((s, p, k), t)) q = keys_at root q.
Proof.
  intros Hv q. unfold keys_at. apply write_unit_frame; [apply own_field_keys|].
  intros _ x Hx. eapply valid_unit_assignment; eassumption.
Qed.

Lemma write_unit_structural {X : Type} (F : Element -> X) root s p k t :
  structural F -> valid_unit root (s, p, k) ->
  F (write_unit root ((s, p, k), t)) = F root.
Proof.
  intros HF Hv. rewrite write_unit_eq. apply update_at_structural; [assumption|].
  intros x Hx. pose proof (valid_unit_assignment _ _ _ _ t _ Hv Hx) as Hk.
  pose proof (assignment_children k t x) as Hc.
  pose proof (assignment_tag k t x) as Ht.
  destruct (assignment k t x) as [tg' a' tx' tl' ch'], x as [tg a tx tl ch].
  cbn [attrib children tag] in *. subst. apply HF; auto.
Qed.

Lemma update_xml_structure {X : Type} (F : Element -> X) :
  structural F ->
  forall units translated root,
    Forall (valid_unit root) units ->
    F (update_xml root units translated) = F root
    /\ forall q, keys_at (update_xml root units translated) q = keys_at root q.
Proof.
  intros HF. unfold update_xml.
  induction units as [|[[s p] k] units IH]; intros [|t ts] root Hv;
    cbn [combine fold_left]; auto.
  inversion Hv as [|? ? Hu Hus]; subst.
  pose proof (write_unit_keys _ _ _ _ t Hu) as Hkeys.
  destruct (IH ts (write_unit root ((s, p, k), t))) as [IH1 IH2].
  { rewrite Forall_forall in *. intros u Hin E1 E2.
    destruct (Hus u Hin E1 E2) as (ks & Hks & Hk).
    exists ks. rewrite Hkeys. auto. }
  split.
  - etransitivity; [exact IH1|]. apply write_unit_structural; assumption.
  - intros q. etransitivity; [exact (IH2 q)|]. apply Hkeys.
Qed.

(** C3. Whatever strings the Writer is given, the document it leaves has
    the tag names, the attribute names, the child ordering and the number of
    nodes of the input document, and a text, a tail or an attribute value
    of a node differs from the input only if a collected unit refers to that
    node with that slot. *)
Theorem writer_preserves_structure (root : Element) (translated : list pystr) :
  let units := collect_translatable_text root in
  let out := update_xml root units translated in
  skeleton out = skeleton root
  /\ count_nodes out = count_nodes root
  /\ (forall p, tag_at out p = tag_at root p /\ keys_at out p = keys_at root p)
  /\ (forall p,
         (forall u, In u units -> ~ (unit_elem u = p /\ unit_attr u = TEXT)) ->
         text_at out p = text_at root p)
  /\ (forall p,
         (forall u, In u units -> ~ (unit_elem u = p /\ unit_attr u = TAIL)) ->
         tail_at out p = tail_at root p)
  /\ (forall p k,
         (forall u, In u units -> ~ (unit_elem u = p /\ unit_attr u = k)) ->
         attr_at out p k = attr_at root p k).
Proof.
  intros units out.
  assert (Hv : Forall (valid_unit root) units).
  { apply Forall_forall. intros u. apply collected_units_valid. }
  destruct (update_xml_structure skeleton skeleton_structural units translated root Hv)
    as [Hs Hk].
  destruct (update_xml_structure count_nodes count_nodes_structural units translated root Hv)
    as [Hc _].
  split; [exact Hs|]. split; [exact Hc|]. split; [|split; [|split]].
  - intros p. split; [|apply Hk].
    apply update_xml_frame; [apply own_field_tag|].
    intros. apply assignment_tag.
  - intros p H. apply update_xml_frame; [apply own_field_text|].
    intros u t x Hin Hp. apply assignment_text. intros E. apply (H u Hin). auto.
  - intros p H. apply update_xml_frame; [apply own_field_tail|].
    intros u t x Hin Hp. apply assignment_tail. intros E. apply (H u Hin). auto.
  - intros p k H. apply (update_xml_frame _ _ (own_field_attr k)).
    intros u t x Hin Hp. apply assignment_attr. left. intros E. apply (H u Hin). auto.
Qed.

(** ** Where the units of one element stand in the collected sequence *)

Lemma own_units_elem u p e : In u (own_units p e) -> unit_elem u = p.
Proof.
  intros H. apply in_own_units in H.
  destruct H as [(v & _ & _ & ->) | [(v & _ & _ & ->) | (k & v & _ & _ & _ & ->)]];
    reflexivity.
Qed.

Lemma collect_from_element_elem u q e :
  In u (collect_from_element q e) -> exists p, unit_elem u = q ++ p.
Proof.
  intros H. apply in_collect_from_element in H. destruct H as (p & e' & _ & H).
  exists p. eapply own_units_elem. eassumption.
Qed.

Lemma collect_children_elem u q cs :
  forall k, In u (collect_children q k cs) ->
    exists j rest, k <= j < k + length cs /\ unit_elem u = q ++ j :: rest.
Proof.
  intros k H. apply in_collect_children in H. destruct H as (j & c & Hj & H).
  apply collect_from_element_elem in H. destruct H as (rest & H).
  exists (k + j), rest. split.
  - assert (j < length cs) by (apply nth_error_Some; congruence). lia.
  - rewrite H, <- app_assoc. reflexivity.
Qed.

Lemma collect_children_app q l1 l2 :
  forall k, collect_children q k (l1 ++ l2)
            = collect_children q k l1 ++ collect_children q (k + length l1) l2.
Proof.
  induction l1 as [|c l1 IH]; intros k; cbn [collect_children app length].
  - rewrite Nat.add_0_r. reflexivity.
  - rewrite IH, <- app_assoc. do 3 f_equal. lia.
Qed.

(** The collected sequence is made of the units before those of the element
    at [p], the own units of that element, and the units after them; only
    the middle part refers to the element. *)
Lemma collect_from_element_split :
  forall p root q e,
    get_elem root p = Some e ->
    exists before after,
      collect_from_element q root = before ++ own_units (q ++ p) e ++ after
      /\ forall u, In u (before ++ after) -> unit_elem u <> q ++ p.
Proof.
  induction p as [|i p IH]; intros root q e Hp.
  - injection Hp as <-. exists [], (collect_children q 0 (children root)).
    rewrite app_nil_r. split; [apply collect_from_element_eq|].
    intros u Hu E. cbn [app] in Hu. apply collect_children_elem in Hu.
    destruct Hu as (j & rest & _ & Hu). rewrite Hu in E.
    apply (f_equal (@length nat)) in E. rewrite length_app in E. cbn in E. lia.
  - cbn [get_elem] in Hp. destruct (nth_error (children root) i) as [c|] eqn:Hc;
      [|discriminate].
    destruct (nth_error_split _ _ Hc) as (l1 & l2 & Hch & Hl1).
    destruct (IH c (q ++ [i]) e Hp) as (before & after & Hsplit & Hother).
    exists (own_units q root ++ collect_children q 0 l1 ++ before),
           (after ++ collect_children q (S i) l2).
    split.
    + rewrite collect_from_element_eq, Hch, collect_children_app.
      cbn [collect_children Nat.add]. rewrite Hl1, Hsplit.
      rewrite <- (app_assoc q [i] p). cbn [app].
      rewrite <- !app_assoc. reflexivity.
    + intros u Hu E. rewrite !in_app_iff in Hu.
      assert (Hlen : forall j rest, unit_elem u = q ++ j :: rest -> j = i).
      { intros j rest Ej. rewrite Ej in E. apply app_inv_head in E.
        injection E. auto. }
      destruct Hu as [[Hu | [Hu | Hu]] | [Hu | Hu]].
      * apply own_units_elem in Hu. rewrite Hu in E.
        apply (f_equal (@length nat)) in E. rewrite length_app in E. cbn in E. lia.
      * apply collect_children_elem in Hu. destruct Hu as (j & rest & Hj & Hu).
        apply Hlen in Hu. lia.
      * apply (Hother u); [apply in_or_app; auto|].
        rewrite E, <- app_assoc. reflexivity.
      * apply (Hother u); [apply in_or_app; auto|].
        rewrite E, <- app_assoc. reflexivity.
      * apply collect_children_elem in Hu. destruct Hu as (j & rest & Hj & Hu).
        apply Hlen in Hu. lia.
Qed.

(** In a dictionary, the unit of an attribute is followed by no unit of the
    same name. *)
Lemma attr_units_split p d k v :
  dict_ok d -> In (k, v) d -> attr_ok k v = true ->
  exists a1 a2,
    attr_units p d = a1 ++ (clean_text (strip v), p, k) :: a2
    /\ forall u, In u a2 -> unit_attr u <> k.
Proof.
  unfold dict_ok. induction d as [|[k0 v0] d IH]; intros Hnd Hin Hok; [destruct Hin|].
  cbn [List.map fst] in Hnd. inversion Hnd as [|? ? Hnotin Hnd']; subst.
  cbn [attr_units]. destruct Hin as [Hin | Hin].
  - injection Hin as -> ->. rewrite Hok. exists [], (attr_units p d).
    split; [reflexivity|].
    intros u Hu E. apply in_attr_units in Hu.
    destruct Hu as (k' & v' & Hin' & _ & _ & ->). cbn [unit_attr snd] in E. subst k'.
    apply Hnotin. apply (in_map fst) in Hin'. exact Hin'.
  - destruct (IH Hnd' Hin Hok) as (a1 & a2 & E & Ha2).
    exists ((if attr_ok k0 v0 then [(clean_text (strip v0), p, k0)] else []) ++ a1), a2.
    split; [|exact Ha2]. rewrite E, <- app_assoc. reflexivity.
Qed.

(** The unit of a collected attribute in the whole sequence: no unit after
    it refers to the same element with the same slot name. *)
Lemma collect_attribute_split root p e k v :
  get_elem root p = Some e -> dict_ok (attrib e) ->
  In (k, v) (attrib e) -> attr_ok k v = true ->
  exists us1 us2,
    collect_translatable_text root = us1 ++ (clean_text (strip v), p, k) :: us2
    /\ forall u, In u us2 -> ~ (unit_elem u = p /\ unit_attr u = k).
Proof.
  intros Hp Hd Hin Hok.
  destruct (collect_from_element_split p root [] e Hp) as (before & after & E & Hother).
  destruct (attr_units_split p (attrib e) k v Hd Hin Hok) as (a1 & a2 & Ea & Ha2).
  cbn [app] in E, Hother.
  exists (before ++ text_units p e ++ tail_units p e ++ a1), (a2 ++ after).
  split.
  - unfold collect_translatable_text. rewrite E. unfold own_units. rewrite Ea.
    rewrite <- !app_assoc. reflexivity.
  - intros u Hu [E1 E2]. apply in_app_or in Hu. destruct Hu as [Hu | Hu].
    + apply (Ha2 u Hu E2).
    + apply (Hother u); [apply in_or_app; auto | exact E1].
Qed.

(** ** The last assignment to a field decides its final value *)

Lemma combine_app_eq {A B : Type} (a b : list A) (c d : list B) :
  length a = length c -> combine (a ++ b) (c ++ d) = combine a c ++ combine b d.
Proof.
  revert c. induction a as [|x a IH]; intros [|y c] H; try discriminate;
    [reflexivity|].
  cbn [app combine]. f_equal. apply IH. injection H. auto.
Qed.

Lemma update_xml_last_write {X : Type} (obs : Element -> X) :
  own_field obs ->
  forall us1 u us2 ts1 t ts2 root x0,
    length us1 = length ts1 ->
    (forall x, obs (assignment (unit_attr u) t x) = x0) ->
    (forall u' t' x, In u' us2 -> unit_elem u' = unit_elem u ->
                     obs (assignment (unit_attr u') t' x) = obs x) ->
    get_elem root (unit_elem u) <> None ->
    option_map obs
      (get_elem (update_xml root (us1 ++ u :: us2) (ts1 ++ t :: ts2)) (unit_elem u))
    = Some x0.
Proof.
  intros Hobs us1 u us2 ts1 t ts2 root x0 Hlen Hset Hlater Hdef.
  unfold update_xml. rewrite combine_app_eq by assumption.
  rewrite fold_left_app. cbn [combine fold_left].
  set (r1 := fold_left write_unit (combine us1 ts1) root).
  change (option_map obs
            (get_elem (update_xml (write_unit r1 (u, t)) us2 ts2) (unit_elem u))
          = Some x0).
  rewrite update_xml_frame by assumption.
  assert (Ht : option_map tag (get_elem r1 (unit_elem u))
               = option_map tag (get_elem root (unit_elem u))).
  { apply (update_xml_frame tag (unit_elem u) own_field_tag us1 ts1 root).
    intros. apply assignment_tag. }
  assert (Hr1 : get_elem r1 (unit_elem u) <> None).
  { intros E. rewrite E in Ht. destruct (get_elem root (unit_elem u));
      [discriminate Ht | congruence]. }
  clear Ht.
  destruct u as [[s p] k]. cbn [unit_elem unit_attr fst snd] in *.
  rewrite write_unit_eq, get_update_same.
  destruct (get_elem r1 p); [|congruence].
  cbn [option_map]. f_equal. apply Hset.
Qed.

(** ** Attributes named like the sentinels *)

(** One of the two sentinels and the field the Writer assigns for it. *)
Definition sentinel (is_tail : bool) : pystr := if is_tail then TAIL else TEXT.
Definition content (is_tail : bool) (e : Element) : option pystr :=
  if is_tail then tail e else text e.

Lemma own_field_content b : own_field (content b).
Proof. intros tg a tx tl ch ch'. destruct b; reflexivity. Qed.

Lemma assignment_sentinel b t x : content b (assignment (sentinel b) t x) = Some t.
Proof. destruct b; reflexivity. Qed.

Lemma assignment_content_other b k t x :
  k <> sentinel b -> content b (assignment k t x) = content b x.
Proof.
  destruct b; cbn [content sentinel]; [apply assignment_tail | apply assignment_text].
Qed.

Lemma sentinel_not_identifier b : ~ In (sentinel b) identifier_attrs.
Proof. destruct b; intros H; vm_compute in H; intuition discriminate. Qed.

Lemma sentinel_attribute_overwrites_content (is_tail : bool) root p e v translated :
  get_elem root p = Some e ->
  dict_ok (attrib e) ->
  In (sentinel is_tail, v) (attrib e) ->
  accepted v ->
  length translated = length (collect_translatable_text root) ->
  let units := collect_translatable_text root in
  let out := update_xml root units translated in
  exists i t,
    nth_error units i = Some (clean_text (strip v), p, sentinel is_tail)
    /\ (forall j u, i < j -> nth_error units j = Some u ->
                    ~ (unit_elem u = p /\ unit_attr u = sentinel is_tail))
    /\ nth_error translated i = Some t
    /\ option_map (content is_tail) (get_elem out p) = Some (Some t)
    /\ attr_at out p (sentinel is_tail) = Some (Some v).
Proof.
  intros Hp Hd Hin Hacc Hlen units out.
  assert (Hok : attr_ok (sentinel is_tail) v = true).
  { apply attr_ok_accepted. split; [assumption | apply sentinel_not_identifier]. }
  destruct (collect_attribute_split root p e (sentinel is_tail) v Hp Hd Hin Hok)
    as (us1 & us2 & E & Hlater).
  fold units in E, Hlen.
  assert (Hi : length us1 < length translated).
  { rewrite Hlen, E, length_app. cbn [length]. lia. }
  destruct (nth_error translated (length us1)) as [t|] eqn:Et;
    [|apply nth_error_None in Et; lia].
  destruct (nth_error_split _ _ Et) as (ts1 & ts2 & Ets & Hts1).
  exists (length us1), t.
  split; [|split; [|split; [|split]]].
  - rewrite E, nth_error_app2, Nat.sub_diag by lia. reflexivity.
  - intros j u Hj Hu. rewrite E, nth_error_app2 in Hu by lia.
    destruct (j - length us1) as [|m] eqn:Em; [lia|].
    cbn [nth_error] in Hu. apply nth_error_In in Hu. auto.
  - exact Et.
  - unfold out. rewrite E, Ets.
    apply (update_xml_last_write (content is_tail) (own_field_content is_tail)
             us1 (clean_text (strip v), p, sentinel is_tail) us2 ts1 t ts2 root (Some t)).
    + symmetry. exact Hts1.
    + intros x. apply assignment_sentinel.
    + intros u' t' x Hu' Eu'. apply assignment_content_other.
      intros Ek. apply (Hlater u' Hu'). auto.
    + cbn [unit_elem fst snd]. congruence.
  - unfold attr_at, out.
    rewrite (update_xml_frame _ p (own_field_attr (sentinel is_tail))).
    + rewrite Hp. cbn [option_map]. rewrite (dict_get_In _ _ _ Hd Hin). reflexivity.
    + intros u t' x _ _. apply assignment_attr. destruct is_tail; auto.
Qed.

(** C10. When a node has an attribute named [text] (or [tail]) whose value
    is collected, the unit stored for it has the very slot name the script
    uses for element text (or tail). The Writer therefore assigns the string
    translated for that unit to the text (or tail) of the node, where it is
    the last assignment and so the final content, and the attribute keeps
    its value. *)
Theorem attribute_named_text_or_tail (root : Element) (p : path) (e : Element)
    (translated : list pystr) :
  get_elem root p = Some e ->
  dict_ok (attrib e) ->
  length translated = length (collect_translatable_text root) ->
  let units := collect_translatable_text root in
  let out := update_xml root units translated in
  (forall v,
      In (py "text", v) (attrib e) -> accepted v ->
      exists i t,
        nth_error units i = Some (clean_text (strip v), p, TEXT)
        /\ (forall j u, i < j -> nth_error units j = Some u ->
                        ~ (unit_elem u = p /\ unit_attr u = TEXT))
        /\ nth_error translated i = Some t
        /\ (forall r, write_unit r ((clean_text (strip v), p, TEXT), t)
                      = update_at p (set_text t) r)
        /\ text_at out p = Some (Some t)
        /\ attr_at out p (py "text") = Some (Some v))
  /\ (forall v,
         In (py "tail", v) (attrib e) -> accepted v ->
         exists i t,
           nth_error units i = Some (clean_text (strip v), p, TAIL)
           /\ (forall j u, i < j -> nth_error units j = Some u ->
                           ~ (unit_elem u = p /\ unit_attr u = TAIL))
           /\ nth_error translated i = Some t
           /\ (forall r, write_unit r ((clean_text (strip v), p, TAIL), t)
                         = update_at p (set_tail t) r)
           /\ tail_at out p = Some (Some t)
           /\ attr_at out p (py "tail") = Some (Some v)).
Proof.
  intros Hp Hd Hlen units out. split; intros v Hin Hacc.
  - destruct (sentinel_attribute_overwrites_content false root p e v translated
                Hp Hd Hin Hacc Hlen) as (i & t & H1 & H2 & H3 & H4 & H5).
    exists i, t. repeat (split; [assumption|]). split; [reflexivity|].
    split; assumption.
  - destruct (sentinel_attribute_overwrites_content true root p e v translated
                Hp Hd Hin Hacc Hlen) as (i & t & H1 & H2 & H3 & H4 & H5).
    exists i, t. repeat (split; [assumption|]). split; [reflexivity|].
    split; assumption.
Qed.

Definition item_with_text_attribute : Element :=
  mkElement (py "item") [(py "text", py "B")] (Some (py "A")) None [].

Lemma attribute_named_text_or_tail_witness :
  let root := item_with_text_attribute in
  let translated := [py "ur:A"; py "ur:B"] in
  let units := collect_translatable_text root in
  let out := update_xml root units translated in
  (forall v,
      In (py "text", v) (attrib root) -> accepted v ->
      exists i t,
        nth_error units i = Some (clean_text (strip v), [], TEXT)
        /\ (forall j u, i < j -> nth_error units j = Some u ->
                        ~ (unit_elem u = [] /\ unit_attr u = TEXT))
        /\ nth_error translated i = Some t
        /\ (forall r, write_unit r ((clean_text (strip v), [], TEXT), t)
                      = update_at [] (set_text t) r)
        /\ text_at out [] = Some (Some t)
        /\ attr_at out [] (py "text") = Some (Some v))
  /\ (forall v,
         In (py "tail", v) (attrib root) -> accepted v ->
         exists i t,
           nth_error units i = Some (clean_text (strip v), [], TAIL)
           /\ (forall j u, i < j -> nth_error units j = Some u ->
                           ~ (unit_elem u = [] /\ unit_attr u = TAIL))
           /\ nth_error translated i = Some t
           /\ (forall r, write_unit r ((clean_text (strip v), [], TAIL), t)
                         = update_at [] (set_tail t) r)
           /\ tail_at out [] = Some (Some t)
           /\ attr_at out [] (py "tail") = Some (Some v)).
Proof.
  apply (attribute_named_text_or_tail item_with_text_attribute []
           item_with_text_attribute [py "ur:A"; py "ur:B"]).
  - reflexivity.
  - unfold dict_ok. simpl. constructor; [intros [] | constructor].
  - reflexivity.
Defined.

(** ** The trace of the adapter *)

(** What the adapter does for the batch of index [k]. *)
Definition batch_events (translator : nat -> list pystr -> response)
    (texts : list pystr) (batch_size k : nat) : list event :=
  let batch := batch_at texts (k * batch_size) batch_size in
  let call := Translate batch (py "ur") (py "en") in
  match translator k batch with
  | Raises message => [call; Print (error_line (k * batch_size) batch_size message)]
  | _ => [call; Print (translated_line (k * batch_size) (length texts) batch_size); Sleep 1]
  end.

Lemma batch_step_snd translator texts batch_size st k :
  0 < batch_size ->
  snd (batch_step translator texts batch_size st (k * batch_size))
  = snd st ++ batch_events translator texts batch_size k.
Proof.
  intros Hb. destruct st as [translations trace].
  unfold batch_step, batch_events.
  rewrite Nat.div_mul by lia.
  destruct (translator k (batch_at texts (k * batch_size) batch_size)); reflexivity.
Qed.

Lemma fold_batch_step_snd translator texts batch_size ks :
  0 < batch_size ->
  forall st,
    snd (fold_left (batch_step translator texts batch_size)
                   (List.map (fun k => k * batch_size) ks) st)
    = snd st ++ concat (List.map (batch_events translator texts batch_size) ks).
Proof.
  intros Hb. induction ks as [|k ks IH]; intros st; cbn [List.map fold_left concat].
  - rewrite app_nil_r. reflexivity.
  - rewrite IH, batch_step_snd by assumption. rewrite app_assoc. reflexivity.
Qed.

(** The adapter in closed form: the batches in order, each with its
    output and its events. *)
Lemma batch_translate_eq translator texts batch_size :
  0 < batch_size ->
  let batches := seq 0 ((length texts + batch_size - 1) / batch_size) in
  batch_translate texts translator batch_size
  = Some (concat (List.map (batch_output translator texts batch_size) batches),
          concat (List.map (batch_events translator texts batch_size) batches)).
Proof.
  intros Hb batches. unfold batch_translate. destruct batch_size as [|b]; [lia|].
  set (bs := S b) in *. unfold py_range. fold batches.
  pose proof (fold_batch_step_fst translator texts bs batches Hb ([], [])) as H1.
  pose proof (fold_batch_step_snd translator texts bs batches Hb ([], [])) as H2.
  destruct (fold_left _ _ _) as [out trace]. cbn [fst snd app] in H1, H2.
  subst. reflexivity.
Qed.

(** A batch whose call raises is answered with its own strings, no pause
    follows it, and every batch is sent whatever happened to the others. *)
Lemma failed_batch_falls_back translator texts batch_size k message :
  translator k (batch_at texts (k * batch_size) batch_size) = Raises message ->
  batch_output translator texts batch_size k = batch_at texts (k * batch_size) batch_size
  /\ batch_events translator texts batch_size k
     = [Translate (batch_at texts (k * batch_size) batch_size) (py "ur") (py "en");
        Print (error_line (k * batch_size) batch_size message)].
Proof.
  intros H. unfold batch_output, batch_events. rewrite H. auto.
Qed.

Lemma every_batch_is_sent translator texts batch_size out trace k :
  0 < batch_size ->
  batch_translate texts translator batch_size = Some (out, trace) ->
  k * batch_size < length texts ->
  In (Translate (batch_at texts (k * batch_size) batch_size) (py "ur") (py "en")) trace.
Proof.
  intros Hb E Hk. rewrite batch_translate_eq in E by assumption.
  injection E as _ <-. apply in_concat.
  exists (batch_events translator texts batch_size k). split.
  - apply in_map, in_seq. split; [lia|]. cbn [Nat.add].
    pose proof (ceil_div_covers (length texts) batch_size Hb).
    set (m := (length texts + batch_size - 1) / batch_size) in *.
    destruct (Nat.lt_ge_cases k m) as [Hlt | Hge]; [exact Hlt|].
    exfalso.
    pose proof (Nat.div_mod_eq (length texts + batch_size - 1) batch_size) as Ed.
    pose proof (Nat.mod_upper_bound (length texts + batch_size - 1) batch_size
                  ltac:(lia)) as Hu.
    fold m in Ed. nia.
  - unfold batch_events.
    destruct (translator k _); left; reflexivity.
Qed.

(** ** Runs on concrete inputs *)

(** [str.lower] on ASCII letters, enough for the file names used below. *)
Definition ascii_lower (s : pystr) : pystr :=
  List.map (fun c => if ((65 <=? c) && (c <=? 90))%N then (c + 32)%N else c) s.

(** A machine where [strings.xml] exists and parses to [doc], the clock
    shows 2024-01-02 03:04:05 and output never fails. *)
Definition sample_runtime (translator : nat -> list pystr -> response)
    (doc : Element) : Runtime :=
  mkRuntime translator (mkDatetime 2024 1 2 3 4 5)
            (fun p => str_eqb p (py "strings.xml")) ascii_lower
            (fun _ => inr doc) (fun _ => None) (fun _ _ => None) (fun _ _ => None).

(** A service whose first call raises and whose later calls succeed. *)
Definition first_call_fails : nat -> list pystr -> response :=
  fun k batch =>
    match k with
    | O => Raises (py "timed out")
    | S _ => marking_translator k batch
    end.

(** C2, on the code. The document [<item text="B">A</item>] gives two units
    that both carry the slot name [text]: the element text "A" and the
    attribute value "B". When the only batch fails the adapter falls back
    to ["A"; "B"], and the Writer assigns both to the text of the element in
    turn: the final document has "B" where the unit of "A" should carry
    its own string. *)
Theorem failed_batch_unit_overwritten :
  let doc := item_with_text_attribute in
  let units := collect_translatable_text doc in
  units = [(py "A", [], TEXT); (py "B", [], TEXT)]
  /\ batch_translate (List.map unit_text units) failing_translator DEFAULT_BATCH_SIZE
     = Some ([py "A"; py "B"],
             [Translate [py "A"; py "B"] (py "ur") (py "en");
              Print (py "Error translating batch 1: timed out")])
  /\ text_at (update_xml doc units [py "A"; py "B"]) [] = Some (Some (py "B"))
  /\ In (WriteXml (py "out.xml")
           (mkElement (py "item") [(py "text", py "B")] (Some (py "B")) None []))
        (fst (translate_xml_to_urdu (sample_runtime failing_translator doc)
                (py "strings.xml") (Some (py "out.xml")))).
Proof.
  cbv zeta. split; [reflexivity|]. split; [vm_compute; reflexivity|].
  split; [reflexivity|]. vm_compute. tauto.
Qed.

(** The same defect across two batches: with 99 elements before it, the
    text of [<item text="B">A</item>] is the last string of the first batch
    and the attribute the only string of the second. The first call fails,
    the second succeeds, and the text of the element ends as the translated
    attribute value. *)
Definition hundred_and_one_units : Element :=
  mkElement (py "resources") [] None None
    (repeat (mkElement (py "string") [] (Some (py "Save")) None []) 99
     ++ [item_with_text_attribute]).

Lemma failed_batch_unit_gets_translation :
  let doc := hundred_and_one_units in
  let units := collect_translatable_text doc in
  nth_error units 99 = Some (py "A", [99], TEXT)
  /\ nth_error units 100 = Some (py "B", [99], TEXT)
  /\ exists out trace,
       batch_translate (List.map unit_text units) first_call_fails DEFAULT_BATCH_SIZE
       = Some (out, trace)
       /\ nth_error out 99 = Some (py "A")
       /\ nth_error out 100 = Some (py "ur:B")
       /\ text_at (update_xml doc units out) [99] = Some (Some (py "ur:B")).
Proof.
  cbv zeta. split; [vm_compute; reflexivity|]. split; [vm_compute; reflexivity|].
  eexists. eexists. split; [vm_compute; reflexivity|].
  split; [vm_compute; reflexivity|]. split; vm_compute; reflexivity.
Qed.

(** C6, on the code. When the call for a batch raises, the adapter prints
    the error and goes on: no pause is issued after the failed batch,
    neither when it is the only one nor before the next call. *)
Theorem no_pause_after_failed_batch :
  batch_translate [py "Save"] failing_translator DEFAULT_BATCH_SIZE
  = Some ([py "Save"],
          [Translate [py "Save"] (py "ur") (py "en");
           Print (py "Error translating batch 1: timed out")])
  /\ batch_translate [py "Save"; py "Open"] first_call_fails 1
     = Some ([py "Save"; py "ur:Open"],
             [Translate [py "Save"] (py "ur") (py "en");
              Print (py "Error translating batch 1: timed out");
              Translate [py "Open"] (py "ur") (py "en");
              Print (py "Translated batch 2 of 2");
              Sleep 1]).
Proof. split; vm_compute; reflexivity. Qed.

(** ** Command line *)

(** Every call of [translate_xml_to_urdu] starts processing: it opens the
    input file. A trace of messages only is a run that never called it. *)
Lemma translate_reads_input rt input_file output_file :
  In (ParseXml input_file) (fst (translate_xml_to_urdu rt input_file output_file)).
Proof.
  unfold translate_xml_to_urdu.
  destruct output_file as [f|];
    (destruct (parse_xml rt input_file) as [message | root];
     [unfold error_exit; cbn [fst]; rewrite !in_app_iff; cbn; tauto|]);
    (destruct (collect_translatable_text root) as [|u us] eqn:Eu;
     [cbn [fst]; rewrite !in_app_iff; cbn; tauto|]);
    (destruct (batch_translate _ _ _) as [[translated calls]|];
     [|unfold error_exit; cbn [fst]; rewrite !in_app_iff; cbn; tauto]);
    unfold write_output, write_file, error_exit;
    repeat match goal with
           | |- context [if ?b then _ else _] => destruct b
           | |- context [match makedirs_error ?r ?d with _ => _ end] =>
               destruct (makedirs_error r d)
           | |- context [match write_error ?r ?d ?t with _ => _ end] =>
               destruct (write_error r d t)
           | |- context [match pretty_error ?r ?d ?t with _ => _ end] =>
               destruct (pretty_error r d t)
           end;
    cbn [fst]; rewrite !in_app_iff; cbn; tauto.
Qed.

(** C9. Without an input path, with an input path that does not exist, or
    with one that does not end in [.xml] once put in lower case, [main]
    prints a message (the usage text in the first case) and exits with
    status 1; its trace holds messages only, so nothing was read, sent to
    the service or written. *)
Theorem cli_rejects_bad_arguments (rt : Runtime) (argv : list pystr) :
  length argv < 2
  \/ path_exists rt (nth 1 argv []) = false
  \/ endswith (str_lower rt (nth 1 argv [])) (py ".xml") = false ->
  exists lines,
    lines <> []
    /\ main rt argv = (List.map Print lines, 1%Z)
    /\ existsb is_processing (fst (main rt argv)) = false
    /\ (length argv < 2 -> List.map Print lines = usage)
    /\ (2 <= length argv -> path_exists rt (nth 1 argv []) = false ->
        lines = [py "Error: Input file '" ++ nth 1 argv [] ++ py "' not found."])
    /\ (2 <= length argv -> path_exists rt (nth 1 argv []) = true ->
        lines = [py "Error: Input file must be an XML file."]).
Proof.
  intros H. unfold main.
  destruct (Nat.ltb_spec (length argv) 2) as [Hlt | Hge].
  - eexists. split; [|split; [reflexivity|split; [reflexivity|]]].
    + discriminate.
    + split; [reflexivity|]. split; intros; lia.
  - destruct H as [H | H]; [lia|].
    destruct (path_exists rt (nth 1 argv [])) eqn:Ex; cbn [negb].
    + destruct H as [H | H]; [discriminate|]. rewrite H. cbn [negb].
      exists [py "Error: Input file must be an XML file."].
      split; [discriminate|]. split; [reflexivity|]. split; [reflexivity|].
      split; [intros; lia|]. split; [intros; discriminate | reflexivity].
    + exists [py "Error: Input file '" ++ nth 1 argv [] ++ py "' not found."].
      split; [discriminate|]. split; [reflexivity|]. split; [reflexivity|].
      split; [intros; lia|]. split; [reflexivity | intros; discriminate].
Qed.

Lemma cli_rejects_bad_arguments_witness :
  exists lines,
    lines <> []
    /\ main (sample_runtime marking_translator item_with_text_attribute)
            [py "script.py"; py "strings.txt"]
       = (List.map Print lines, 1%Z)
    /\ existsb is_processing
         (fst (main (sample_runtime marking_translator item_with_text_attribute)
                    [py "script.py"; py "strings.txt"])) = false
    /\ (length [py "script.py"; py "strings.txt"] < 2 -> List.map Print lines = usage)
    /\ (2 <= length [py "script.py"; py "strings.txt"] ->
        path_exists (sample_runtime marking_translator item_with_text_attribute)
                    (nth 1 [py "script.py"; py "strings.txt"] []) = false ->
        lines = [py "Error: Input file '" ++ nth 1 [py "script.py"; py "strings.txt"] []
                 ++ py "' not found."])
    /\ (2 <= length [py "script.py"; py "strings.txt"] ->
        path_exists (sample_runtime marking_translator item_with_text_attribute)
                    (nth 1 [py "script.py"; py "strings.txt"] []) = true ->
        lines = [py "Error: Input file must be an XML file."]).
Proof.
  apply (cli_rejects_bad_arguments
           (sample_runtime marking_translator item_with_text_attribute)
           [py "script.py"; py "strings.txt"]).
  right. left. reflexivity.
Defined.

(** ** Nothing to translate *)

(** The claim as the specification has it: with no unit collected, the run
    ends without error, reports that nothing was found and writes an
    output file that holds the input document. *)
Definition empty_collection_emits_copy : Prop :=
  forall rt input_file output_file root,
    parse_xml rt input_file = inr root ->
    collect_translatable_text root = [] ->
    exists trace file,
      translate_xml_to_urdu rt input_file output_file = (trace, Returned file)
      /\ In (Print (py "No translatable text found in the XML file.")) trace
      /\ In (WriteXml file root) trace.

Definition no_text_document : Element :=
  mkElement (py "resources") [(py "name", py "strings")] None None
    [mkElement (py "group") [(py "id", py "main")] (Some (py "%d items")) None []].

(** C7, as stated, fails: for a document without translatable text the run
    returns before anything is written. *)
Lemma empty_collection_writes_nothing : ~ empty_collection_emits_copy.
Proof.
  intros H.
  destruct (H (sample_runtime marking_translator no_text_document)
              (py "strings.xml") (Some (py "out.xml")) no_text_document
              eq_refl eq_refl) as (trace & file & E & _ & Hw).
  vm_compute in E. injection E as <- <-.
  cbn in Hw. intuition discriminate.
Qed.

(** The name the run returns as its output file. *)
Definition chosen_output_file (rt : Runtime) (input_file : pystr)
    (output_file : option pystr) : pystr :=
  match output_file with
  | Some f => f
  | None => default_output_file input_file (now rt)
  end.

(** C7, amended. When the Collector finds no unit, the run ends without
    error right after saying so: it returns the output path, and has read
    the input only; it calls no translation, creates no directory and
    writes no output file. *)
Theorem empty_collection_short_circuits (rt : Runtime) (input_file : pystr)
    (output_file : option pystr) (root : Element) :
  parse_xml rt input_file = inr root ->
  collect_translatable_text root = [] ->
  exists trace,
    translate_xml_to_urdu rt input_file output_file
    = (trace, Returned (chosen_output_file rt input_file output_file))
    /\ (exists announced,
           trace = announced
                   ++ [ParseXml input_file;
                       Print (py "Collecting translatable text...");
                       Print (py "No translatable text found in the XML file.")]
           /\ announced
              = match output_file with
                | Some _ => []
                | None => [Print (py "No output file specified. Will save to: "
                                  ++ default_output_file input_file (now rt))]
                end)
    /\ (forall ev, In ev trace -> is_processing ev = true -> ev = ParseXml input_file).
Proof.
  intros Hparse Hempty. unfold translate_xml_to_urdu.
  destruct output_file as [f|]; rewrite Hparse, Hempty; cbn [chosen_output_file];
    eexists; (split; [reflexivity|]); split.
  - exists []. split; reflexivity.
  - intros ev Hin Hproc. cbn in Hin.
    destruct Hin as [<- | [<- | [<- | []]]]; try discriminate Hproc. reflexivity.
  - eexists. split; [|reflexivity]. rewrite <- app_assoc. reflexivity.
  - intros ev Hin Hproc. cbn in Hin.
    destruct Hin as [<- | [<- | [<- | [<- | []]]]]; try discriminate Hproc. reflexivity.
Qed.

Lemma empty_collection_short_circuits_witness :
  exists trace,
    translate_xml_to_urdu (sample_runtime marking_translator no_text_document)
                          (py "strings.xml") (Some (py "out.xml"))
    = (trace, Returned (py "out.xml"))
    /\ (exists announced,
           trace = announced
                   ++ [ParseXml (py "strings.xml");
                       Print (py "Collecting translatable text...");
                       Print (py "No translatable text found in the XML file.")]
           /\ announced = [])
    /\ (forall ev, In ev trace -> is_processing ev = true ->
                   ev = ParseXml (py "strings.xml")).
Proof.
  apply (empty_collection_short_circuits
           (sample_runtime marking_translator no_text_document)
           (py "strings.xml") (Some (py "out.xml")) no_text_document);
    reflexivity.
Defined.

(** ** The default output name *)

Lemma rfind_from_notin c s : forall i, ~ In c s -> rfind_from c s i = (-1)%Z.
Proof.
  induction s as [|x s IH]; intros i H; cbn [rfind_from]; [reflexivity|].
  rewrite IH by (intros Hin; apply H; right; exact Hin). cbn.
  destruct (N.eqb_spec x c) as [-> | _]; [|reflexivity].
  exfalso. apply H. left. reflexivity.
Qed.

Lemma rfind_from_app_notin c a b :
  forall i, ~ In c b -> rfind_from c (a ++ b) i = rfind_from c a i.
Proof.
  induction a as [|x a IH]; intros i H; cbn [app rfind_from].
  - apply rfind_from_notin. exact H.
  - rewrite IH by exact H. reflexivity.
Qed.

Lemma rfind_from_last c a b :
  forall i, (0 <= i)%Z -> ~ In c b ->
            rfind_from c (a ++ c :: b) i = (i + Z.of_nat (length a))%Z.
Proof.
  induction a as [|x a IH]; intros i Hi H; cbn [app rfind_from length].
  - rewrite rfind_from_notin by exact H. cbn. rewrite N.eqb_refl. lia.
  - rewrite IH by (try lia; exact H).
    destruct (Z.leb_spec 0 (i + 1 + Z.of_nat (length a))); lia.
Qed.

Lemma rfind_from_range c s :
  forall i, (0 <= i)%Z ->
            rfind_from c s i = (-1)%Z
            \/ (i <= rfind_from c s i < i + Z.of_nat (length s))%Z.
Proof.
  induction s as [|x s IH]; intros i Hi; cbn [rfind_from length]; [auto|].
  destruct (IH (i + 1)%Z ltac:(lia)) as [E | E].
  - rewrite E. cbn. destruct (N.eqb x c); [right; lia | auto].
  - destruct (Z.leb_spec 0 (rfind_from c s (i + 1))); [right; lia | lia].
Qed.

(** The file name in a path: what follows the last separator. *)
Definition basename (p : pystr) : pystr := slice_from p (rfind p SLASH + 1).

(** [splitext] takes [.xml] off a path whose file name before the
    extension is not made of dots only. *)
Lemma splitext_xml (stem : pystr) :
  has_non_dot (basename stem) = true ->
  splitext (stem ++ py ".xml") = (stem, py ".xml").
Proof.
  intros Hname. unfold splitext, rfind.
  assert (Hsep : rfind_from SLASH (stem ++ py ".xml") 0 = rfind_from SLASH stem 0).
  { apply rfind_from_app_notin. intros H. vm_compute in H. intuition discriminate. }
  assert (Hdot : rfind_from DOT (stem ++ py ".xml") 0 = Z.of_nat (length stem)).
  { change (py ".xml") with (DOT :: py "xml").
    rewrite rfind_from_last; [lia | lia |].
    intros H. vm_compute in H. intuition discriminate. }
  rewrite Hsep, Hdot.
  pose proof (rfind_from_range SLASH stem 0 ltac:(lia)) as Hr.
  replace (rfind_from SLASH stem 0 <? Z.of_nat (length stem))%Z with true
    by (symmetry; apply Z.ltb_lt; lia).
  unfold slice_to, slice_from. rewrite Nat2Z.id.
  rewrite firstn_app, Nat.sub_diag, firstn_all, app_nil_r. cbn [firstn andb].
  unfold basename, slice_from, rfind in Hname. rewrite Hname.
  rewrite skipn_app, Nat.sub_diag, skipn_all. reflexivity.
Qed.

(** A time stamp of the form YYYYMMDD_HHMMSS. *)
Definition is_stamp (s : pystr) : bool :=
  (length s =? 15)
  && forallb is_digit (firstn 8 s)
  && match nth_error s 8 with Some c => N.eqb c 95 | None => false end
  && forallb is_digit (skipn 9 s).

(** The values [datetime.now()] takes; below the year 1000 the width of
    [%Y] depends on the platform, and the clock is past that. *)
Definition valid_datetime (dt : datetime) : Prop :=
  1000 <= year dt < 100 * 100 /\ 1 <= month dt <= 12 /\ 1 <= day dt <= 31
  /\ hour dt <= 23 /\ minute dt <= 59 /\ second dt <= 59.

Definition digits_of_width (width : nat) (s : pystr) : bool :=
  (length s =? width) && forallb is_digit s.

Lemma zero_padded_2 n : n < 100 -> digits_of_width 2 (zero_padded 2 n) = true.
Proof.
  intros H.
  assert (A : forallb (fun n => digits_of_width 2 (zero_padded 2 n)) (seq 0 100) = true)
    by (vm_compute; reflexivity).
  rewrite forallb_forall in A. apply A. apply in_seq. lia.
Qed.

Lemma zero_padded_4 n : n < 100 * 100 -> digits_of_width 4 (zero_padded 4 n) = true.
Proof.
  intros H.
  assert (A : forallb (fun n => digits_of_width 4 (zero_padded 4 n)) (seq 0 (100 * 100)) = true)
    by (vm_compute; reflexivity).
  rewrite forallb_forall in A. apply A. apply in_seq. lia.
Qed.

Lemma strftime_stamp_is_stamp dt : valid_datetime dt -> is_stamp (strftime_stamp dt) = true.
Proof.
  intros (Hy & Hm & Hd & Hh & Hmi & Hs). unfold strftime_stamp.
  pose proof (zero_padded_4 (year dt) ltac:(lia)) as Y.
  pose proof (zero_padded_2 (month dt) ltac:(lia)) as M.
  pose proof (zero_padded_2 (day dt) ltac:(lia)) as D.
  pose proof (zero_padded_2 (hour dt) ltac:(lia)) as H.
  pose proof (zero_padded_2 (minute dt) ltac:(lia)) as MI.
  pose proof (zero_padded_2 (second dt) ltac:(lia)) as S.
  unfold digits_of_width in *.
  destruct (zero_padded 4 (year dt)) as [|y1 [|y2 [|y3 [|y4 [|]]]]]; try discriminate Y.
  destruct (zero_padded 2 (month dt)) as [|m1 [|m2 [|]]]; try discriminate M.
  destruct (zero_padded 2 (day dt)) as [|d1 [|d2 [|]]]; try discriminate D.
  destruct (zero_padded 2 (hour dt)) as [|h1 [|h2 [|]]]; try discriminate H.
  destruct (zero_padded 2 (minute dt)) as [|i1 [|i2 [|]]]; try discriminate MI.
  destruct (zero_padded 2 (second dt)) as [|s1 [|s2 [|]]]; try discriminate S.
  cbn [length Nat.eqb forallb andb] in *.
  unfold is_stamp. cbn [app length Nat.eqb firstn skipn forallb nth_error andb py
                          list_ascii_of_string List.map].
  repeat match goal with
         | H : _ && _ = true |- _ => apply andb_true_iff in H; destruct H
         end.
  repeat match goal with
         | H : is_digit ?c = true |- _ => rewrite H; clear H
         end.
  reflexivity.
Qed.

(** The claim as the specification has it: for [strings.xml] the made-up
    name is [strings_ur_], a time stamp, [.xml]. *)
Definition default_name_has_ur_tag : Prop :=
  forall dt, valid_datetime dt ->
    exists stamp,
      is_stamp stamp = true
      /\ default_output_file (py "strings.xml") dt
         = py "strings_ur_" ++ stamp ++ py ".xml".

Lemma sample_clock_valid : valid_datetime (mkDatetime 2024 1 2 3 4 5).
Proof. unfold valid_datetime. cbn. lia. Defined.

(** C8, as stated, fails: the tag the script puts in the name is [urdu],
    so the name has [d] where the pattern has the second underscore. *)
Lemma default_name_tag_is_urdu : ~ default_name_has_ur_tag.
Proof.
  intros H. destruct (H _ sample_clock_valid) as (stamp & Hstamp & E).
  apply (f_equal (fun name => nth 10 name 0%N)) in E.
  vm_compute in E. discriminate E.
Qed.

(** C8, amended. Without an explicit output path the name is the input
    path without its extension, then [_urdu_], the time stamp
    YYYYMMDD_HHMMSS of the run and [.xml]; an input [stem.xml] gives
    [stem_urdu_YYYYMMDD_HHMMSS.xml], and [strings.xml] gives
    [strings_urdu_YYYYMMDD_HHMMSS.xml]. *)
Theorem default_output_name (input_file : pystr) (dt : datetime) :
  valid_datetime dt ->
  default_output_file input_file dt
  = fst (splitext input_file) ++ py "_urdu_" ++ strftime_stamp dt ++ py ".xml"
  /\ is_stamp (strftime_stamp dt) = true
  /\ (forall stem,
         input_file = stem ++ py ".xml" -> has_non_dot (basename stem) = true ->
         default_output_file input_file dt
         = stem ++ py "_urdu_" ++ strftime_stamp dt ++ py ".xml")
  /\ default_output_file (py "strings.xml") dt
     = py "strings_urdu_" ++ strftime_stamp dt ++ py ".xml"
  /\ (forall rt output,
         now rt = dt ->
         chosen_output_file rt input_file None = default_output_file input_file dt
         /\ chosen_output_file rt input_file (Some output) = output).
Proof.
  intros Hdt. split; [reflexivity|]. split; [apply strftime_stamp_is_stamp; exact Hdt|].
  split; [|split].
  - intros stem -> Hstem. unfold default_output_file.
    rewrite splitext_xml by exact Hstem. reflexivity.
  - reflexivity.
  - intros rt output <-. split; reflexivity.
Qed.

Lemma default_output_name_witness :
  let input_file := py "res/strings.xml" in
  let dt := mkDatetime 2024 1 2 3 4 5 in
  default_output_file input_file dt
  = fst (splitext input_file) ++ py "_urdu_" ++ strftime_stamp dt ++ py ".xml"
  /\ is_stamp (strftime_stamp dt) = true
  /\ (forall stem,
         input_file = stem ++ py ".xml" -> has_non_dot (basename stem) = true ->
         default_output_file input_file dt
         = stem ++ py "_urdu_" ++ strftime_stamp dt ++ py ".xml")
  /\ default_output_file (py "strings.xml") dt
     = py "strings_urdu_" ++ strftime_stamp dt ++ py ".xml"
  /\ (forall rt output,
         now rt = dt ->
         chosen_output_file rt input_file None = default_output_file input_file dt
         /\ chosen_output_file rt input_file (Some output) = output).
Proof.
  apply (default_output_name (py "res/strings.xml") (mkDatetime 2024 1 2 3 4 5)).
  exact sample_clock_valid.
Defined.

(** The name made up for [res/strings.xml] at 2024-01-02 03:04:05. *)
Example default_output_name_sample :
  default_output_file (py "res/strings.xml") (mkDatetime 2024 1 2 3 4 5)
  = py "res/strings_urdu_20240102_030405.xml".
Proof. vm_compute. reflexivity. Qed.

(** * Further properties of the script *)

(** ** The batches of the adapter *)

Lemma firstn_plus {A : Type} (a b : nat) (l : list A) :
  firstn (a + b) l = firstn a l ++ firstn b (skipn a l).
Proof.
  revert l. induction a as [|a IH]; intros l; [reflexivity|].
  destruct l as [|x l]; cbn [Nat.add firstn skipn app].
  - rewrite firstn_nil. reflexivity.
  - rewrite IH. reflexivity.
Qed.

Lemma concat_batches_prefix texts batch_size :
  forall m,
    concat (List.map (fun k => batch_at texts (k * batch_size) batch_size) (seq 0 m))
    = firstn (m * batch_size) texts.
Proof.
  induction m as [|m IH]; [reflexivity|].
  rewrite seq_S, map_app, concat_app, IH. cbn [List.map concat Nat.add].
  rewrite app_nil_r. unfold batch_at.
  replace (S m * batch_size) with (m * batch_size + batch_size) by (cbn; lia).
  symmetry. apply firstn_plus.
Qed.

(** The batches put end to end are the input. *)
Lemma concat_batches texts batch_size :
  0 < batch_size ->
  concat (List.map (fun k => batch_at texts (k * batch_size) batch_size)
                   (seq 0 ((length texts + batch_size - 1) / batch_size)))
  = texts.
Proof.
  intros Hb. rewrite concat_batches_prefix. apply firstn_all2.
  apply ceil_div_covers. exact Hb.
Qed.

Lemma number_of_batches n batch_size :
  0 < batch_size ->
  let m := (n + batch_size - 1) / batch_size in
  n <= m * batch_size < n + batch_size.
Proof.
  intros Hb m. split; [apply ceil_div_covers; exact Hb|].
  pose proof (Nat.div_mod_eq (n + batch_size - 1) batch_size) as E.
  fold m in E. nia.
Qed.

(** The batches a trace shows as sent to the service, in order. *)
Definition sent_batches (trace : list event) : list (list pystr) :=
  flat_map (fun ev => match ev with Translate batch _ _ => [batch] | _ => [] end) trace.

(** The pauses of a trace, in order. *)
Definition pauses (trace : list event) : list nat :=
  flat_map (fun ev => match ev with Sleep seconds => [seconds] | _ => [] end) trace.

Lemma sent_batches_batch_events translator texts batch_size k :
  sent_batches (batch_events translator texts batch_size k)
  = [batch_at texts (k * batch_size) batch_size].
Proof.
  unfold batch_events. destruct (translator k _); reflexivity.
Qed.

(** Whether the call for the batch of index [k] returned. *)
Definition call_returns (translator : nat -> list pystr -> response)
    (texts : list pystr) (batch_size k : nat) : bool :=
  match translator k (batch_at texts (k * batch_size) batch_size) with
  | Raises _ => false
  | _ => true
  end.

Lemma pauses_batch_events translator texts batch_size k :
  pauses (batch_events translator texts batch_size k)
  = if call_returns translator texts batch_size k then [1] else [].
Proof.
  unfold batch_events, call_returns. destruct (translator k _); reflexivity.
Qed.

Lemma sent_batches_of_run translator texts batch_size ks :
  sent_batches (concat (List.map (batch_events translator texts batch_size) ks))
  = List.map (fun k => batch_at texts (k * batch_size) batch_size) ks.
Proof.
  induction ks as [|k ks IH]; [reflexivity|].
  cbn [List.map concat]. unfold sent_batches in *. rewrite flat_map_app, IH.
  fold (sent_batches (batch_events translator texts batch_size k)).
  rewrite sent_batches_batch_events. reflexivity.
Qed.

Lemma pauses_of_run translator texts batch_size ks :
  pauses (concat (List.map (batch_events translator texts batch_size) ks))
  = List.map (fun _ => 1) (filter (call_returns translator texts batch_size) ks).
Proof.
  induction ks as [|k ks IH]; [reflexivity|].
  cbn [List.map concat filter]. unfold pauses in *. rewrite flat_map_app, IH.
  fold (pauses (batch_events translator texts batch_size k)).
  rewrite pauses_batch_events.
  destruct (call_returns translator texts batch_size k); reflexivity.
Qed.

(** X1. The adapter cuts its input into ceil(N/B) batches, each with at
    least one and at most B strings, which put end to end are the input;
    the calls of the service a run makes are these batches, in order. *)
Theorem batches_partition_input
    (translator : nat -> list pystr -> response) (texts : list pystr)
    (batch_size : nat) :
  0 < batch_size ->
  let starts := py_range (length texts) batch_size in
  let batches := List.map (fun i => batch_at texts i batch_size) starts in
  concat batches = texts
  /\ length texts <= length batches * batch_size < length texts + batch_size
  /\ Forall (fun batch => 1 <= length batch <= batch_size) batches
  /\ exists out trace,
       batch_translate texts translator batch_size = Some (out, trace)
       /\ sent_batches trace = batches.
Proof.
  intros Hb starts batches.
  assert (Eb : batches
               = List.map (fun k => batch_at texts (k * batch_size) batch_size)
                   (seq 0 ((length texts + batch_size - 1) / batch_size))).
  { unfold batches, starts, py_range. rewrite map_map. reflexivity. }
  pose proof (number_of_batches (length texts) batch_size Hb) as Hm. cbv zeta in Hm.
  split; [rewrite Eb; apply concat_batches; exact Hb|].
  split; [rewrite Eb, length_map, length_seq; exact Hm|].
  split.
  - rewrite Eb. apply Forall_forall. intros batch Hin.
    apply in_map_iff in Hin. destruct Hin as (k & <- & Hk). apply in_seq in Hk.
    rewrite length_batch_at. nia.
  - eexists. eexists. split; [apply batch_translate_eq; exact Hb|].
    rewrite sent_batches_of_run. symmetry. exact Eb.
Qed.

Lemma batches_partition_input_witness :
  let texts := [py "Save"; py "Open"; py "Close"] in
  let starts := py_range (length texts) 2 in
  let batches := List.map (fun i => batch_at texts i 2) starts in
  concat batches = texts
  /\ length texts <= length batches * 2 < length texts + 2
  /\ Forall (fun batch => 1 <= length batch <= 2) batches
  /\ exists out trace,
       batch_translate texts first_call_fails 2 = Some (out, trace)
       /\ sent_batches trace = batches.
Proof.
  apply (batches_partition_input first_call_fails [py "Save"; py "Open"; py "Close"] 2).
  lia.
Defined.

(** X2. Batching does not show in the result: when the service answers
    every batch with one result per string, made from that string alone,
    the adapter returns the input with every string translated, whatever
    the batch size. *)
Theorem batching_is_transparent
    (translator : nat -> list pystr -> response) (translate_one : pystr -> Translated)
    (texts : list pystr) (batch_size : nat) :
  0 < batch_size ->
  (forall k batch, translator k batch = Results (List.map translate_one batch)) ->
  exists trace,
    batch_translate texts translator batch_size
    = Some (List.map (fun s => tr_text (translate_one s)) texts, trace).
Proof.
  intros Hb Hpure. rewrite batch_translate_eq by exact Hb. cbv zeta.
  eexists. f_equal. f_equal.
  transitivity
    (List.map (fun s => tr_text (translate_one s))
       (concat (List.map (fun k => batch_at texts (k * batch_size) batch_size)
                  (seq 0 ((length texts + batch_size - 1) / batch_size))))).
  - rewrite concat_map, map_map. f_equal. apply map_ext. intros k.
    unfold batch_output. rewrite Hpure, map_map. reflexivity.
  - rewrite concat_batches by exact Hb. reflexivity.
Qed.

Lemma batching_is_transparent_witness :
  exists trace,
    batch_translate [py "Save"; py "Open"; py "Close"] marking_translator 2
    = Some (List.map (fun s => tr_text (mkTranslated s (py "ur:" ++ s)))
                     [py "Save"; py "Open"; py "Close"], trace).
Proof.
  apply (batching_is_transparent marking_translator
           (fun s => mkTranslated s (py "ur:" ++ s))).
  - lia.
  - intros k batch. reflexivity.
Defined.

(** X3. When every call of the service raises, the adapter returns its
    input as it is, after trying every batch. *)
Theorem all_calls_fail_returns_input
    (translator : nat -> list pystr -> response) (texts : list pystr)
    (batch_size : nat) :
  0 < batch_size ->
  (forall k batch, exists message, translator k batch = Raises message) ->
  exists trace,
    batch_translate texts translator batch_size = Some (texts, trace)
    /\ length (sent_batches trace) = (length texts + batch_size - 1) / batch_size.
Proof.
  intros Hb Hdown. rewrite batch_translate_eq by exact Hb. cbv zeta.
  eexists. split.
  - f_equal. f_equal.
    transitivity
      (concat (List.map (fun k => batch_at texts (k * batch_size) batch_size)
                 (seq 0 ((length texts + batch_size - 1) / batch_size)))).
    + f_equal. apply map_ext. intros k. unfold batch_output.
      destruct (Hdown k (batch_at texts (k * batch_size) batch_size)) as [message E].
      rewrite E. reflexivity.
    + apply concat_batches. exact Hb.
  - rewrite sent_batches_of_run, length_map, length_seq. reflexivity.
Qed.

Lemma all_calls_fail_returns_input_witness :
  exists trace,
    batch_translate [py "Save"; py "Open"; py "Close"] failing_translator 2
    = Some ([py "Save"; py "Open"; py "Close"], trace)
    /\ length (sent_batches trace) = (3 + 2 - 1) / 2.
Proof.
  apply (all_calls_fail_returns_input failing_translator
           [py "Save"; py "Open"; py "Close"] 2).
  - lia.
  - intros k batch. exists (py "timed out"). reflexivity.
Defined.

(** X4. The adapter pauses one second once for every batch whose call
    returned, the last batch included, and not at all for a batch whose
    call raised. *)
Theorem one_pause_per_returned_call
    (translator : nat -> list pystr -> response) (texts : list pystr)
    (batch_size : nat) :
  0 < batch_size ->
  exists out trace,
    batch_translate texts translator batch_size = Some (out, trace)
    /\ pauses trace
       = repeat 1 (length (filter (call_returns translator texts batch_size)
                                  (seq 0 ((length texts + batch_size - 1) / batch_size)))).
Proof.
  intros Hb. rewrite batch_translate_eq by exact Hb. cbv zeta.
  eexists. eexists. split; [reflexivity|].
  rewrite pauses_of_run.
  induction (filter _ _) as [|k ks IH]; [reflexivity|].
  cbn [List.map length repeat]. rewrite IH. reflexivity.
Qed.

Lemma one_pause_per_returned_call_witness :
  exists out trace,
    batch_translate [py "Save"; py "Open"; py "Close"] first_call_fails 1
    = Some (out, trace)
    /\ pauses trace
       = repeat 1 (length (filter (call_returns first_call_fails
                                     [py "Save"; py "Open"; py "Close"] 1)
                                  (seq 0 ((3 + 1 - 1) / 1)))).
Proof.
  apply (one_pause_per_returned_call first_call_fails
           [py "Save"; py "Open"; py "Close"] 1).
  lia.
Defined.

(** ** [clean_text] and the queued strings *)

Lemma ellipsis_to_dots_id (s : pystr) : ~ In ELLIPSIS s -> ellipsis_to_dots s = s.
Proof.
  unfold ellipsis_to_dots, substitute_char.
  induction s as [|x s IH]; intros H; [reflexivity|].
  cbn [flat_map]. destruct (N.eqb_spec x ELLIPSIS) as [-> | _].
  - exfalso. apply H. left. reflexivity.
  - cbn [app]. rewrite IH; [reflexivity|]. intros Hin. apply H. right. exact Hin.
Qed.

Lemma ellipsis_to_dots_length (s : pystr) :
  length (ellipsis_to_dots s) = length s + 2 * count_occ N.eq_dec s ELLIPSIS.
Proof.
  unfold ellipsis_to_dots, substitute_char.
  induction s as [|x s IH]; [reflexivity|].
  cbn [flat_map count_occ length]. rewrite length_app, IH.
  destruct (N.eqb_spec x ELLIPSIS) as [-> | Hx];
    destruct (N.eq_dec _ ELLIPSIS) as [E | E]; try congruence;
    try replace (length (py "...")) with 3 by reflexivity; cbn [length]; lia.
Qed.

(** X5. [clean_text] changes a string only by putting three dots for each
    ellipsis: it leaves a string without ellipsis as it is (and only such
    a string), applying it twice is applying it once, and the result is two
    characters longer for every ellipsis of the argument. *)
Theorem clean_text_properties (s : pystr) :
  (clean_text s = s <-> ~ In ELLIPSIS s)
  /\ clean_text (clean_text s) = clean_text s
  /\ length (clean_text s) = length s + 2 * count_occ N.eq_dec s ELLIPSIS
  /\ ~ In ELLIPSIS (clean_text s).
Proof.
  rewrite !clean_text_spec. repeat split.
  - intros E. rewrite <- E. apply ellipsis_to_dots_clean.
  - apply ellipsis_to_dots_id.
  - apply ellipsis_to_dots_id, ellipsis_to_dots_clean.
  - apply ellipsis_to_dots_length.
  - apply ellipsis_to_dots_clean.
Qed.

Lemma lstrip_split (s : pystr) :
  exists ws, s = ws ++ lstrip s /\ forallb isspace ws = true.
Proof.
  induction s as [|c s (ws & E & Hws)]; [exists []; auto|].
  cbn [lstrip]. destruct (isspace c) eqn:Ec.
  - exists (c :: ws). cbn [app forallb]. rewrite Ec, Hws. split; [congruence | reflexivity].
  - exists []. auto.
Qed.

Lemma lstrip_head (s : pystr) c rest : lstrip s = c :: rest -> isspace c = false.
Proof.
  induction s as [|x s IH]; cbn [lstrip]; [discriminate|].
  destruct (isspace x) eqn:Ex; [exact IH|].
  intros E. injection E as <- _. exact Ex.
Qed.

Lemma rstrip_split (s : pystr) :
  exists ws, s = rstrip s ++ ws /\ forallb isspace ws = true.
Proof.
  destruct (lstrip_split (rev s)) as (ws & E & Hws).
  exists (rev ws). split.
  - unfold rstrip. rewrite <- rev_app_distr, <- E, rev_involutive. reflexivity.
  - rewrite forallb_forall in *. intros c Hc. apply Hws, in_rev. exact Hc.
Qed.

Lemma in_strip (c : N) (s : pystr) : In c (strip s) -> In c s.
Proof.
  intros H. unfold strip in H.
  destruct (rstrip_split (lstrip s)) as (ws1 & E1 & _).
  destruct (lstrip_split s) as (ws2 & E2 & _).
  rewrite E2, E1. apply in_or_app. right. apply in_or_app. left. exact H.
Qed.

Lemma strip_head (s : pystr) c rest : strip s = c :: rest -> isspace c = false.
Proof.
  intros E. unfold strip in E.
  destruct (rstrip_split (lstrip s)) as (ws & Es & _).
  rewrite E in Es. cbn [app] in Es. eapply lstrip_head. exact Es.
Qed.

Lemma strip_last (s : pystr) front c : strip s = front ++ [c] -> isspace c = false.
Proof.
  intros E. unfold strip, rstrip in E.
  apply (f_equal (@rev N)) in E. rewrite rev_involutive, rev_app_distr in E.
  cbn [rev app] in E. eapply lstrip_head. exact E.
Qed.

Lemma ellipsis_to_dots_head (s : pystr) c rest :
  ellipsis_to_dots s = c :: rest ->
  c = DOT \/ exists rest', s = c :: rest'.
Proof.
  unfold ellipsis_to_dots, substitute_char.
  destruct s as [|x s]; cbn [flat_map]; [discriminate|].
  destruct (N.eqb x ELLIPSIS); cbn; intros E; injection E as <- _; eauto.
Qed.

Lemma ellipsis_to_dots_last (s : pystr) front c :
  ellipsis_to_dots s = front ++ [c] ->
  c = DOT \/ exists front', s = front' ++ [c].
Proof.
  unfold ellipsis_to_dots, substitute_char.
  destruct (rev s) as [|x r] eqn:Er.
  - apply (f_equal (@rev N)) in Er. rewrite rev_involutive in Er. subst s.
    cbn. intros E. destruct front; discriminate E.
  - apply (f_equal (@rev N)) in Er. rewrite rev_involutive in Er. subst s.
    cbn [rev]. rewrite flat_map_app. cbn [flat_map]. rewrite app_nil_r.
    destruct (N.eqb x ELLIPSIS).
    + change (py "...") with ([DOT; DOT] ++ [DOT]). rewrite app_assoc.
      intros E. apply app_inj_tail in E. destruct E as [_ <-]. auto.
    + intros E. apply app_inj_tail in E.
      destruct E as [_ <-]. eauto.
Qed.

Lemma in_ellipsis_to_dots (c : N) (s : pystr) :
  In c (ellipsis_to_dots s) -> c = DOT \/ In c s.
Proof.
  unfold ellipsis_to_dots, substitute_char. rewrite in_flat_map.
  intros (x & Hx & Hc). destruct (N.eqb x ELLIPSIS).
  - left. unfold DOT. cbn in Hc. intuition congruence.
  - right. destruct Hc as [<- | []]. exact Hx.
Qed.

(** X6. Every string the Collector queues is non-empty, has no white space
    at either end and holds no ['%']. *)
Theorem queued_strings_are_trimmed (root : Element) (u : TranslationUnit) :
  In u (collect_translatable_text root) ->
  unit_text u <> []
  /\ ~ In PERCENT (unit_text u)
  /\ (forall c rest, unit_text u = c :: rest -> isspace c = false)
  /\ (forall front c, unit_text u = front ++ [c] -> isspace c = false).
Proof.
  intros Hu. apply in_collect in Hu. destruct Hu as (p & e & _ & Hu).
  apply in_own_units in Hu.
  assert (H : exists v, accepted v /\ unit_text u = ellipsis_to_dots (strip v)).
  { destruct Hu as [(v & _ & A & ->) | [(v & _ & A & ->) | (k & v & _ & A & _ & ->)]];
      exists v; cbn [unit_text fst]; rewrite clean_text_spec; auto. }
  destruct H as (v & [Hne Hpc] & ->). split; [|split; [|split]].
  - destruct (strip v) as [|c s] eqn:E; [congruence|].
    unfold ellipsis_to_dots, substitute_char. cbn [flat_map].
    destruct (N.eqb c ELLIPSIS); discriminate.
  - intros H. apply in_ellipsis_to_dots in H. destruct H as [H | H].
    + discriminate H.
    + apply Hpc, in_strip. exact H.
  - intros c rest E. apply ellipsis_to_dots_head in E.
    destruct E as [-> | (rest' & E)]; [reflexivity|].
    eapply strip_head. exact E.
  - intros front c E. apply ellipsis_to_dots_last in E.
    destruct E as [-> | (front' & E)]; [reflexivity|].
    eapply strip_last. exact E.
Qed.

Lemma queued_strings_are_trimmed_witness :
  unit_text (py "A", [], TEXT) <> []
  /\ ~ In PERCENT (unit_text (py "A", [], TEXT))
  /\ (forall c rest, unit_text (py "A", [], TEXT) = c :: rest -> isspace c = false)
  /\ (forall front c, unit_text (py "A", [], TEXT) = front ++ [c] -> isspace c = false).
Proof.
  apply (queued_strings_are_trimmed item_with_text_attribute).
  left. reflexivity.
Defined.

(** ** The Writer on documents without attributes named like the sentinels *)

(** The field a unit is written to: the element and the slot name. *)
Definition target (u : TranslationUnit) : path * pystr := (unit_elem u, unit_attr u).

(** The attributes of an element are a dictionary with no key [text] or
    [tail]. *)
Definition plain_attributes (e : Element) : Prop :=
  dict_ok (attrib e)
  /\ ~ In TEXT (List.map fst (attrib e))
  /\ ~ In TAIL (List.map fst (attrib e)).

Definition every_element (P : Element -> Prop) (root : Element) : Prop :=
  forall p e, get_elem root p = Some e -> P e.

(** What the Writer's dispatch reads as the slot [k] of an element. *)
Definition slot_value (k : pystr) (e : Element) : option pystr :=
  if str_eqb k TEXT then text e
  else if str_eqb k TAIL then tail e
  else dict_get (attrib e) k.

Definition slot_at (r : Element) (p : path) (k : pystr) : option (option pystr) :=
  option_map (slot_value k) (get_elem r p).

Lemma own_field_slot_value k : own_field (slot_value k).
Proof. intros tg a tx tl ch ch'. reflexivity. Qed.

Lemma dict_get_set_same (d : list (pystr * pystr)) (k v : pystr) :
  dict_get (dict_set d k v) k = Some v.
Proof.
  induction d as [|[k0 v0] d IH]; cbn.
  - rewrite str_eqb_refl. reflexivity.
  - destruct (str_eqb k0 k) eqn:E; cbn; rewrite E; [reflexivity | exact IH].
Qed.

Lemma slot_value_assignment_same k t x : slot_value k (assignment k t x) = Some t.
Proof.
  unfold slot_value, assignment.
  destruct (str_eqb k TEXT); [reflexivity|].
  destruct (str_eqb k TAIL); [reflexivity|].
  apply dict_get_set_same.
Qed.

Lemma slot_value_assignment_other k k' t x :
  k' <> k -> slot_value k (assignment k' t x) = slot_value k x.
Proof.
  intros H. unfold slot_value.
  destruct (str_eqb k TEXT) eqn:E1.
  - apply str_eqb_eq in E1. subst k. apply assignment_text. exact H.
  - destruct (str_eqb k TAIL) eqn:E2.
    + apply str_eqb_eq in E2. subst k. apply assignment_tail. exact H.
    + apply assignment_attr. left. exact H.
Qed.

Lemma attr_units_keys u p d :
  In u (attr_units p d) -> unit_elem u = p /\ In (unit_attr u) (List.map fst d).
Proof.
  intros H. apply in_attr_units in H. destruct H as (k & v & Hin & _ & _ & ->).
  split; [reflexivity|]. apply (in_map fst) in Hin. exact Hin.
Qed.

Lemma attr_units_targets_nodup p d :
  dict_ok d -> NoDup (List.map target (attr_units p d)).
Proof.
  unfold dict_ok. induction d as [|[k v] d IH]; intros Hd; [constructor|].
  cbn [List.map fst] in Hd. inversion Hd as [|? ? Hk Hd']; subst.
  cbn [attr_units]. destruct (attr_ok k v); cbn [app List.map]; [|auto].
  constructor; [|auto].
  intros Hin. apply in_map_iff in Hin. destruct Hin as (u & Eu & Hu).
  apply attr_units_keys in Hu. destruct Hu as [_ Hu].
  unfold target in Eu. cbn [unit_elem unit_attr fst snd] in Eu.
  injection Eu as _ Ek. rewrite Ek in Hu. auto.
Qed.

Lemma own_units_targets_nodup p e :
  plain_attributes e -> NoDup (List.map target (own_units p e)).
Proof.
  intros (Hd & Htext & Htail). unfold own_units. rewrite !map_app.
  assert (Hattr : forall t, In t (List.map target (attr_units p (attrib e))) ->
                            In (snd t) (List.map fst (attrib e))).
  { intros t Hin. apply in_map_iff in Hin. destruct Hin as (u & <- & Hu).
    apply attr_units_keys in Hu. apply Hu. }
  assert (Htl : forall t, In t (List.map target (tail_units p e)) -> snd t = TAIL).
  { intros t Hin. apply in_map_iff in Hin. destruct Hin as (u & <- & Hu).
    apply in_tail_units in Hu. destruct Hu as (v & _ & _ & ->). reflexivity. }
  assert (Htx : forall t, In t (List.map target (text_units p e)) -> snd t = TEXT).
  { intros t Hin. apply in_map_iff in Hin. destruct Hin as (u & <- & Hu).
    apply in_text_units in Hu. destruct Hu as (v & _ & _ & ->). reflexivity. }
  apply NoDup_app; [|apply NoDup_app|].
  - unfold text_units. destruct (text e); [|constructor].
    destruct (text_ok _); repeat constructor. intros [].
  - unfold tail_units. destruct (tail e); [|constructor].
    destruct (text_ok _); repeat constructor. intros [].
  - apply attr_units_targets_nodup. exact Hd.
  - intros t H1 H2. apply Htl in H1. apply Hattr in H2. rewrite H1 in H2. auto.
  - intros t H1 H2. apply Htx in H1. apply in_app_or in H2. destruct H2 as [H2 | H2].
    + apply Htl in H2. rewrite H1 in H2. discriminate H2.
    + apply Hattr in H2. rewrite H1 in H2. auto.
Qed.

Lemma collect_children_targets_nodup q cs :
  Forall (fun c => forall q', NoDup (List.map target (collect_from_element q' c))) cs ->
  forall k, NoDup (List.map target (collect_children q k cs)).
Proof.
  induction cs as [|c cs IH]; intros Hcs k; [constructor|].
  inversion Hcs as [|? ? Hc Hcs']; subst.
  cbn [collect_children]. rewrite map_app. apply NoDup_app; [apply Hc | apply IH, Hcs'|].
  intros t H1 H2.
  apply in_map_iff in H1. destruct H1 as (u1 & <- & H1).
  apply in_map_iff in H2. destruct H2 as (u2 & E & H2).
  apply collect_from_element_elem in H1. destruct H1 as (p1 & E1).
  apply collect_children_elem in H2. destruct H2 as (j & rest & Hj & E2).
  unfold target in E. injection E as E _. rewrite E1, E2, <- app_assoc in E.
  apply app_inv_head in E. cbn [app] in E. injection E as E _. lia.
Qed.

(** Without attributes named [text] or [tail], no two collected units are
    written to the same field. *)
Lemma collect_targets_nodup (root : Element) :
  forall q, every_element plain_attributes root ->
            NoDup (List.map target (collect_from_element q root)).
Proof.
  induction root as [tg at_ tx tl ch IH] using Element_tree_ind. intros q Hplain.
  rewrite collect_from_element_eq, map_app. cbn [children].
  apply NoDup_app.
  - apply own_units_targets_nodup. apply (Hplain []). reflexivity.
  - apply collect_children_targets_nodup.
    rewrite Forall_forall in *. intros c Hc q'.
    apply (IH c Hc). intros p e Hp.
    destruct (In_nth_error _ _ Hc) as [i Hi].
    apply (Hplain (i :: p)). cbn [get_elem children]. rewrite Hi. exact Hp.
  - intros t H1 H2.
    apply in_map_iff in H1. destruct H1 as (u1 & <- & H1).
    apply in_map_iff in H2. destruct H2 as (u2 & E & H2).
    apply own_units_elem in H1.
    apply collect_children_elem in H2. destruct H2 as (j & rest & _ & E2).
    unfold target in E. injection E as E _. rewrite H1, E2 in E.
    apply (f_equal (@length nat)) in E. rewrite length_app in E. cbn in E. lia.
Qed.

(** When no later unit is written to the same field, a unit's string is
    what its slot holds in the end. *)
Lemma update_xml_by_index root units translated i u t :
  NoDup (List.map target units) ->
  nth_error units i = Some u ->
  nth_error translated i = Some t ->
  get_elem root (unit_elem u) <> None ->
  slot_at (update_xml root units translated) (unit_elem u) (unit_attr u)
  = Some (Some t).
Proof.
  intros Hnd Hu Ht Hdef.
  destruct (nth_error_split _ _ Hu) as (us1 & us2 & -> & Hl1).
  destruct (nth_error_split _ _ Ht) as (ts1 & ts2 & -> & Hl2).
  rewrite map_app in Hnd. cbn [List.map] in Hnd. apply NoDup_remove_2 in Hnd.
  unfold slot_at.
  apply (update_xml_last_write (slot_value (unit_attr u))
           (own_field_slot_value (unit_attr u)) us1 u us2 ts1 t ts2 root (Some t)).
  - congruence.
  - intros x. apply slot_value_assignment_same.
  - intros u' t' x Hin Ep. apply slot_value_assignment_other.
    intros Ek. apply Hnd. apply in_or_app. right.
    apply in_map_iff. exists u'. split; [|exact Hin].
    unfold target. congruence.
  - exact Hdef.
Qed.

(** [<string name="save" label="Hi"> Save </string>] *)
Definition labelled_string : Element :=
  mkElement (py "string") [(py "name", py "save"); (py "label", py "Hi")]
            (Some (py " Save ")) None [].

Lemma labelled_string_plain : every_element plain_attributes labelled_string.
Proof.
  intros [|i p] e H.
  - injection H as <-. unfold plain_attributes, dict_ok. cbn. repeat split.
    + repeat constructor; cbn; intuition discriminate.
    + vm_compute. intuition discriminate.
    + vm_compute. intuition discriminate.
  - cbn in H. destruct i; discriminate H.
Defined.

(** X7. The Writer pairs units and strings by position and stops at the
    shorter list: strings past the last unit are ignored, units past the
    last string are not written, and with no string at all the document is
    left as it is. *)
Theorem writer_stops_at_shorter_list (root : Element)
    (units : list TranslationUnit) (translated : list pystr) :
  let n := Nat.min (length units) (length translated) in
  update_xml root units translated
  = update_xml root (firstn n units) (firstn n translated)
  /\ update_xml root units [] = root
  /\ forall extra,
       length units <= length translated ->
       update_xml root units (translated ++ extra) = update_xml root units translated.
Proof.
  intros n. unfold update_xml. split; [|split].
  - rewrite <- combine_firstn. unfold n. rewrite <- length_combine, firstn_all.
    reflexivity.
  - destruct units; reflexivity.
  - intros extra Hlen. f_equal. clear n. revert translated Hlen.
    induction units as [|u units IH]; intros [|t ts] Hlen; cbn in *;
      try reflexivity; try lia.
    f_equal. apply IH. lia.
Qed.

(** X8. In a document where no element has an attribute named [text] or
    [tail], the Writer puts each translated string where its unit points:
    after the update, the slot of the unit of index [i] holds the string of
    index [i]. *)
Theorem translations_reach_their_slots (root : Element) (translated : list pystr) :
  every_element plain_attributes root ->
  let units := collect_translatable_text root in
  forall i u t,
    nth_error units i = Some u ->
    nth_error translated i = Some t ->
    slot_at (update_xml root units translated) (unit_elem u) (unit_attr u)
    = Some (Some t).
Proof.
  intros Hplain units i u t Hu Ht.
  apply (update_xml_by_index root units translated i u t).
  - apply collect_targets_nodup. exact Hplain.
  - exact Hu.
  - exact Ht.
  - apply nth_error_In in Hu. apply in_collect in Hu.
    destruct Hu as (p & e & Hp & Hu). apply own_units_elem in Hu.
    rewrite Hu, Hp. discriminate.
Qed.

Lemma translations_reach_their_slots_witness :
  slot_at (update_xml labelled_string (collect_translatable_text labelled_string)
             [py "ur:Save"; py "ur:Hi"])
          [] (py "label")
  = Some (Some (py "ur:Hi")).
Proof.
  apply (translations_reach_their_slots labelled_string [py "ur:Save"; py "ur:Hi"]
           labelled_string_plain 1 (py "Hi", [], py "label") (py "ur:Hi"));
    reflexivity.
Defined.

(** X9. Attributes named [name], [id] or [identifier] keep their values
    through the Writer, in every document and whatever strings come back
    from the service. *)
Theorem identifier_attributes_are_kept (root : Element) (translated : list pystr)
    (p : path) (k : pystr) :
  In k identifier_attrs ->
  attr_at (update_xml root (collect_translatable_text root) translated) p k
  = attr_at root p k.
Proof.
  intros Hk. unfold attr_at.
  apply (update_xml_frame _ p (own_field_attr k)).
  intros u t x Hu _. apply assignment_attr. left. intros E.
  apply in_collect in Hu. destruct Hu as (p' & e & _ & Hu).
  apply in_own_units in Hu.
  destruct Hu as [(v & _ & _ & ->) | [(v & _ & _ & ->) | (k' & v & _ & _ & Hk' & ->)]];
    cbn [unit_attr snd] in E; subst k.
  - apply (sentinel_not_identifier false). exact Hk.
  - apply (sentinel_not_identifier true). exact Hk.
  - auto.
Qed.

Lemma identifier_attributes_are_kept_witness :
  attr_at (update_xml labelled_string (collect_translatable_text labelled_string)
             [py "ur:Save"; py "ur:Hi"]) [] (py "name")
  = attr_at labelled_string [] (py "name").
Proof.
  apply (identifier_attributes_are_kept labelled_string [py "ur:Save"; py "ur:Hi"]
           [] (py "name")).
  left. reflexivity.
Defined.

Lemma dict_value_unique (d : list (pystr * pystr)) k v v' :
  dict_ok d -> In (k, v) d -> In (k, v') d -> v = v'.
Proof.
  intros Hd H H'. apply (dict_get_In d k v Hd) in H. apply (dict_get_In d k v' Hd) in H'.
  congruence.
Qed.

Lemma own_units_at root p e u :
  get_elem root p = Some e ->
  In u (collect_translatable_text root) -> unit_elem u = p ->
  In u (own_units p e).
Proof.
  intros Hp Hu Ep. apply in_collect in Hu. destruct Hu as (p' & e' & Hp' & Hu).
  pose proof (own_units_elem u p' e' Hu) as E. rewrite Ep in E. subst p'.
  rewrite Hp in Hp'. injection Hp' as <-. exact Hu.
Qed.

(** X10. What the Collector refuses the Writer leaves alone: in an element
    whose attributes are a dictionary without the keys [text] and [tail],
    an attribute value, a text or a tail that holds ['%'] or is blank is
    the same after the update, and so is a missing text or tail. *)
Theorem refused_strings_are_kept (root : Element) (translated : list pystr)
    (p : path) (e : Element) :
  get_elem root p = Some e ->
  plain_attributes e ->
  let out := update_xml root (collect_translatable_text root) translated in
  (forall k v, In (k, v) (attrib e) -> ~ accepted v -> attr_at out p k = Some (Some v))
  /\ ((forall v, text e = Some v -> ~ accepted v) -> text_at out p = Some (text e))
  /\ ((forall v, tail e = Some v -> ~ accepted v) -> tail_at out p = Some (tail e)).
Proof.
  intros Hp (Hd & Htext & Htail) out. split; [|split].
  - intros k v Hin Hno. unfold attr_at, out.
    rewrite (update_xml_frame _ p (own_field_attr k)).
    + rewrite Hp. cbn [option_map]. rewrite (dict_get_In _ _ _ Hd Hin). reflexivity.
    + intros u t x Hu Ep. apply assignment_attr. left. intros E.
      pose proof (own_units_at root p e u Hp Hu Ep) as Hown.
      apply in_own_units in Hown.
      destruct Hown as [(v' & _ & _ & ->) | [(v' & _ & _ & ->) | (k' & v' & Hin' & A & _ & ->)]];
        cbn [unit_attr snd] in E.
      * subst k. apply Htext. apply (in_map fst) in Hin. exact Hin.
      * subst k. apply Htail. apply (in_map fst) in Hin. exact Hin.
      * subst k'. apply Hno. rewrite <- (dict_value_unique _ _ _ _ Hd Hin' Hin). exact A.
  - intros Hno. unfold text_at, out.
    rewrite (update_xml_frame _ p own_field_text); [rewrite Hp; reflexivity|].
    intros u t x Hu Ep. apply assignment_text. intros E.
    pose proof (own_units_at root p e u Hp Hu Ep) as Hown.
    apply in_own_units in Hown.
    destruct Hown as [(v' & Hv & A & _) | [(v' & _ & _ & ->) | (k' & v' & Hin' & _ & _ & ->)]];
      cbn [unit_attr snd] in E.
    + apply (Hno v' Hv A).
    + discriminate E.
    + subst k'. apply Htext. apply (in_map fst) in Hin'. exact Hin'.
  - intros Hno. unfold tail_at, out.
    rewrite (update_xml_frame _ p own_field_tail); [rewrite Hp; reflexivity|].
    intros u t x Hu Ep. apply assignment_tail. intros E.
    pose proof (own_units_at root p e u Hp Hu Ep) as Hown.
    apply in_own_units in Hown.
    destruct Hown as [(v' & _ & _ & ->) | [(v' & Hv & A & _) | (k' & v' & Hin' & _ & _ & ->)]];
      cbn [unit_attr snd] in E.
    + discriminate E.
    + apply (Hno v' Hv A).
    + subst k'. apply Htail. apply (in_map fst) in Hin'. exact Hin'.
Qed.

(** [<string name="count" hint="%d">%d items</string>] *)
Definition format_string : Element :=
  mkElement (py "string") [(py "name", py "count"); (py "hint", py "%d")]
            (Some (py "%d items")) None [].

Lemma format_string_plain : plain_attributes format_string.
Proof.
  unfold plain_attributes, dict_ok. cbn. repeat split.
  - repeat constructor; cbn; intuition discriminate.
  - vm_compute. intuition discriminate.
  - vm_compute. intuition discriminate.
Defined.

Lemma refused_strings_are_kept_witness :
  let out := update_xml format_string (collect_translatable_text format_string)
               [py "ur:x"] in
  (forall k v, In (k, v) (attrib format_string) -> ~ accepted v ->
               attr_at out [] k = Some (Some v))
  /\ ((forall v, text format_string = Some v -> ~ accepted v) ->
      text_at out [] = Some (text format_string))
  /\ ((forall v, tail format_string = Some v -> ~ accepted v) ->
      tail_at out [] = Some (tail format_string)).
Proof.
  apply (refused_strings_are_kept format_string [py "ur:x"] [] format_string).
  - reflexivity.
  - exact format_string_plain.
Defined.

(** ** Whole runs *)

(** The exception of the output stage for the tree [root], if any: from
    creating the missing directory of the output file, from [tree.write],
    or from the pretty-printing pass. *)
Definition output_error (rt : Runtime) (output_file : pystr) (root : Element)
    : option pystr :=
  let output_dir := dirname output_file in
  let file_error :=
    match write_error rt output_file root with
    | Some message => Some message
    | None => pretty_error rt output_file root
    end in
  if truthy output_dir && negb (path_exists rt output_dir) then
    match makedirs_error rt output_dir with
    | Some message => Some message
    | None => file_error
    end
  else file_error.

(** The calls of [tree.write] a trace shows: the files and the trees. *)
Definition written (trace : list event) : list (pystr * Element) :=
  flat_map (fun ev => match ev with WriteXml f d => [(f, d)] | _ => [] end) trace.

Lemma sent_batches_app a b : sent_batches (a ++ b) = sent_batches a ++ sent_batches b.
Proof. apply flat_map_app. Qed.

Lemma written_app a b : written (a ++ b) = written a ++ written b.
Proof. apply flat_map_app. Qed.

Lemma written_batch_events translator texts batch_size ks :
  written (concat (List.map (batch_events translator texts batch_size) ks)) = [].
Proof.
  induction ks as [|k ks IH]; [reflexivity|].
  cbn [List.map concat]. rewrite written_app, IH, app_nil_r.
  unfold batch_events. destruct (translator k _); reflexivity.
Qed.

(** The output stage: what it adds to the trace and how it ends. *)
Lemma write_output_spec rt trace output_file root :
  exists added,
    fst (write_output rt trace output_file root) = trace ++ added
    /\ sent_batches added = []
    /\ snd (write_output rt trace output_file root)
       = match output_error rt output_file root with
         | Some _ => Exited 1
         | None => Returned output_file
         end
    /\ (written added = [] \/ written added = [(output_file, root)])
    /\ (output_error rt output_file root = None ->
        exists dirs,
          added = dirs ++ [WriteXml output_file root;
                           PrettyPrint output_file root;
                           Print (py "Translation completed. Saved to: " ++ output_file)]
          /\ written dirs = []).
Proof.
  unfold write_output, output_error, write_file, error_exit.
  destruct (truthy (dirname output_file) && negb (path_exists rt (dirname output_file)));
    [destruct (makedirs_error rt (dirname output_file))|];
    try destruct (write_error rt output_file root);
    try destruct (pretty_error rt output_file root); cbn [fst snd];
    rewrite <- ?app_assoc; cbn [app]; eexists; (split; [reflexivity|]);
    (split; [reflexivity|]); (split; [reflexivity|]); (split; [cbn; auto|]);
    intros E; try discriminate E.
  - exists [Makedirs (dirname output_file)]. split; reflexivity.
  - exists []. split; reflexivity.
Qed.

Lemma batch_translate_default texts translator :
  batch_translate texts translator DEFAULT_BATCH_SIZE
  = Some (concat (List.map (batch_output translator texts DEFAULT_BATCH_SIZE)
                    (seq 0 ((length texts + DEFAULT_BATCH_SIZE - 1) / DEFAULT_BATCH_SIZE))),
          concat (List.map (batch_events translator texts DEFAULT_BATCH_SIZE)
                    (seq 0 ((length texts + DEFAULT_BATCH_SIZE - 1) / DEFAULT_BATCH_SIZE)))).
Proof. apply batch_translate_eq. unfold DEFAULT_BATCH_SIZE. lia. Qed.

(** A run that parsed its input and collected units: it goes through the
    adapter and the Writer to the output stage. *)
Lemma run_with_units rt input_file output_file root :
  parse_xml rt input_file = inr root ->
  collect_translatable_text root <> [] ->
  let units := collect_translatable_text root in
  exists before translated calls,
    batch_translate (List.map unit_text units) (translator rt) DEFAULT_BATCH_SIZE
    = Some (translated, calls)
    /\ sent_batches before = [] /\ written before = []
    /\ In (ParseXml input_file) before
    /\ translate_xml_to_urdu rt input_file output_file
       = write_output rt
           (before ++ calls ++ [Print (py "Updating XML with translations...")])
           (chosen_output_file rt input_file output_file)
           (update_xml root units translated).
Proof.
  intros Hparse Hne. cbv zeta.
  unfold translate_xml_to_urdu. rewrite Hparse.
  destruct (collect_translatable_text root) as [|u us] eqn:Eu; [congruence|].
  rewrite (batch_translate_default (List.map unit_text (u :: us)) (translator rt)).
  destruct output_file as [f|]; cbn [chosen_output_file];
    eexists; eexists; eexists; (split; [reflexivity|]);
    (split; [|split; [|split; [|reflexivity]]]);
    rewrite ?sent_batches_app, ?written_app, ?in_app_iff; cbn; auto.
Qed.

Lemma run_without_units rt input_file output_file :
  (exists message, parse_xml rt input_file = inl message)
  \/ (exists root, parse_xml rt input_file = inr root
                   /\ collect_translatable_text root = []) ->
  sent_batches (fst (translate_xml_to_urdu rt input_file output_file)) = []
  /\ written (fst (translate_xml_to_urdu rt input_file output_file)) = []
  /\ snd (translate_xml_to_urdu rt input_file output_file)
     = match parse_xml rt input_file with
       | inl _ => Exited 1
       | inr _ => Returned (chosen_output_file rt input_file output_file)
       end.
Proof.
  unfold translate_xml_to_urdu, error_exit.
  intros [[message E] | (root & E & Hu)]; rewrite E; try rewrite Hu;
    destruct output_file; cbn; auto.
Qed.

(** The strings the adapter returns for the units of [root]: the default
    batch size never makes [range] raise. *)
Definition adapter_output (rt : Runtime) (root : Element) : list pystr :=
  let texts := List.map unit_text (collect_translatable_text root) in
  concat (List.map (batch_output (translator rt) texts DEFAULT_BATCH_SIZE)
            (seq 0 ((length texts + DEFAULT_BATCH_SIZE - 1) / DEFAULT_BATCH_SIZE))).

Lemma adapter_output_eq rt root translated calls :
  batch_translate (List.map unit_text (collect_translatable_text root))
                  (translator rt) DEFAULT_BATCH_SIZE = Some (translated, calls) ->
  translated = adapter_output rt root.
Proof.
  rewrite batch_translate_default. unfold adapter_output. congruence.
Qed.

(** How a run ends. *)
Definition expected_outcome (rt : Runtime) (input_file : pystr)
    (output_file : option pystr) : outcome :=
  let out := chosen_output_file rt input_file output_file in
  match parse_xml rt input_file with
  | inl _ => Exited 1
  | inr root =>
      match collect_translatable_text root with
      | [] => Returned out
      | _ :: _ =>
          match output_error rt out
                  (update_xml root (collect_translatable_text root)
                     (adapter_output rt root)) with
          | Some _ => Exited 1
          | None => Returned out
          end
      end
  end.

Lemma run_outcome rt input_file output_file :
  snd (translate_xml_to_urdu rt input_file output_file)
  = expected_outcome rt input_file output_file.
Proof.
  unfold expected_outcome.
  destruct (parse_xml rt input_file) as [message | root] eqn:Hparse.
  - destruct (run_without_units rt input_file output_file) as (_ & _ & E).
    + left. eauto.
    + rewrite E, Hparse. reflexivity.
  - destruct (collect_translatable_text root) as [|u us] eqn:Hu.
    + destruct (run_without_units rt input_file output_file) as (_ & _ & E).
      * right. eauto.
      * rewrite E, Hparse. reflexivity.
    + destruct (run_with_units rt input_file output_file root Hparse)
        as (before & translated & calls & Hb & _ & _ & _ & E).
      * congruence.
      * apply adapter_output_eq in Hb. subst translated. rewrite E.
        destruct (write_output_spec rt
                    (before ++ calls ++ [Print (py "Updating XML with translations...")])
                    (chosen_output_file rt input_file output_file)
                    (update_xml root (collect_translatable_text root)
                       (adapter_output rt root)))
          as (added & _ & _ & Hsnd & _).
        rewrite <- Hu. exact Hsnd.
Qed.

(** X11. The exit status of the script is 0 or 1. It is 0 exactly when an
    input path is given, exists, ends in [.xml] in lower case and parses,
    and either nothing is collected or the output stage (creating the
    directory, writing the updated tree, pretty-printing the file) raises
    nothing for the tree updated with what the adapter returned. An
    exception of the translation service is never a reason by itself: the
    service counts only through the tree that is written. *)
Theorem exit_status_of_main (rt : Runtime) (argv : list pystr) :
  let input_file := nth 1 argv [] in
  let output_file := if 2 <? length argv then nth_error argv 2 else None in
  let out := chosen_output_file rt input_file output_file in
  (snd (main rt argv) = 0%Z \/ snd (main rt argv) = 1%Z)
  /\ (snd (main rt argv) = 0%Z <->
      2 <= length argv
      /\ path_exists rt input_file = true
      /\ endswith (str_lower rt input_file) (py ".xml") = true
      /\ exists root,
           parse_xml rt input_file = inr root
           /\ (collect_translatable_text root = []
               \/ exists translated calls,
                    batch_translate
                      (List.map unit_text (collect_translatable_text root))
                      (translator rt) DEFAULT_BATCH_SIZE
                    = Some (translated, calls)
                    /\ output_error rt out
                         (update_xml root (collect_translatable_text root) translated)
                       = None)).
Proof.
  intros input_file output_file out.
  assert (Hrt : snd (main rt argv)
                = if length argv <? 2 then 1%Z
                  else if negb (path_exists rt input_file) then 1%Z
                  else if negb (endswith (str_lower rt input_file) (py ".xml")) then 1%Z
                  else match expected_outcome rt input_file output_file with
                       | Returned _ => 0%Z
                       | Exited code => code
                       end).
  { unfold main. fold input_file output_file.
    destruct (length argv <? 2); [reflexivity|].
    destruct (path_exists rt input_file); [|reflexivity]. cbn [negb].
    destruct (endswith _ _); [|reflexivity]. cbn [negb].
    pose proof (run_outcome rt input_file output_file) as Ho.
    destruct (translate_xml_to_urdu rt input_file output_file) as [trace res].
    cbn [snd] in Ho. subst res.
    destruct (expected_outcome rt input_file output_file); reflexivity. }
  split.
  { rewrite Hrt. unfold expected_outcome.
    destruct (length argv <? 2); [auto|].
    destruct (path_exists rt input_file); cbn [negb]; [|auto].
    destruct (endswith _ _); cbn [negb]; [|auto].
    destruct (parse_xml rt input_file) as [message | root]; [auto|].
    destruct (collect_translatable_text root); [auto|].
    destruct (output_error rt _ _); auto. }
  rewrite Hrt. unfold expected_outcome. fold out.
  destruct (Nat.ltb_spec (length argv) 2) as [Hlt | Hge].
  { split; [discriminate | intros (H & _); lia]. }
  destruct (path_exists rt input_file); cbn [negb];
    [|split; [discriminate | intros (_ & H & _); discriminate H]].
  destruct (endswith _ _); cbn [negb];
    [|split; [discriminate | intros (_ & _ & H & _); discriminate H]].
  destruct (parse_xml rt input_file) as [message | root];
    [split; [discriminate | intros (_ & _ & _ & root & H & _); discriminate H]|].
  destruct (collect_translatable_text root) as [|u us] eqn:Hu.
  { split; [|reflexivity]. intros _. repeat (split; [auto|]).
    exists root. rewrite Hu. auto. }
  rewrite <- Hu.
  destruct (output_error rt out _) as [message|] eqn:Ho.
  - split; [discriminate|].
    intros (_ & _ & _ & root' & E & [H | (translated & calls & Hb & H)]).
    + injection E as <-. congruence.
    + injection E as <-. apply adapter_output_eq in Hb. subst translated. congruence.
  - split; [|reflexivity]. intros _. repeat (split; [auto|]).
    exists root. split; [reflexivity|]. right.
    eexists. eexists. split; [apply batch_translate_default|]. exact Ho.
Qed.

(** A run that reaches the output stage and gets through it: its result,
    the tree it writes, and the end of its trace. *)
Lemma run_result rt input_file output_file root :
  parse_xml rt input_file = inr root ->
  collect_translatable_text root <> [] ->
  let units := collect_translatable_text root in
  let out := chosen_output_file rt input_file output_file in
  let doc := update_xml root units (adapter_output rt root) in
  output_error rt out doc = None ->
  exists trace before,
    translate_xml_to_urdu rt input_file output_file = (trace, Returned out)
    /\ written trace = [(out, doc)]
    /\ trace = before ++ [WriteXml out doc; PrettyPrint out doc;
                          Print (py "Translation completed. Saved to: " ++ out)].
Proof.
  intros Hparse Hne units out doc Hout.
  destruct (run_with_units rt input_file output_file root Hparse Hne)
    as (before & translated & calls & Hb & _ & Hw & _ & E).
  pose proof (adapter_output_eq rt root translated calls Hb) as Ht. subst translated.
  fold units out doc in E.
  destruct (write_output_spec rt
              (before ++ calls ++ [Print (py "Updating XML with translations...")])
              out doc)
    as (added & Hfst & _ & Hsnd & _ & Hok).
  rewrite Hout in Hsnd.
  destruct (Hok Hout) as (dirs & -> & Hdirs).
  assert (Hcalls : written calls = []).
  { pose proof (batch_translate_default
                  (List.map unit_text (collect_translatable_text root))
                  (translator rt)) as Hd.
    rewrite Hb in Hd. injection Hd as ->. apply written_batch_events. }
  exists (fst (translate_xml_to_urdu rt input_file output_file)),
         ((before ++ calls ++ [Print (py "Updating XML with translations...")]) ++ dirs).
  split; [|split].
  - rewrite E. rewrite <- Hsnd. destruct (write_output _ _ _ _); reflexivity.
  - rewrite E, Hfst, !written_app, Hw, Hdirs, Hcalls. reflexivity.
  - rewrite E, Hfst, app_assoc. reflexivity.
Qed.

Lemma pointwise_output translator translate_one texts batch_size :
  0 < batch_size ->
  (forall k batch, translator k batch = Results (List.map translate_one batch)) ->
  concat (List.map (batch_output translator texts batch_size)
            (seq 0 ((length texts + batch_size - 1) / batch_size)))
  = List.map (fun s => tr_text (translate_one s)) texts.
Proof.
  intros Hb Hpure.
  rewrite <- (concat_batches texts batch_size Hb) at 3.
  rewrite concat_map, map_map. f_equal. apply map_ext. intros k.
  unfold batch_output. rewrite Hpure, map_map. reflexivity.
Qed.


(** The slots of a document updated with one string per unit, computed
    from the unit. *)
Lemma updated_slots root (f : TranslationUnit -> pystr) u :
  every_element plain_attributes root ->
  In u (collect_translatable_text root) ->
  slot_at (update_xml root (collect_translatable_text root)
             (List.map f (collect_translatable_text root)))
          (unit_elem u) (unit_attr u)
  = Some (Some (f u)).
Proof.
  intros Hplain Hu. destruct (In_nth_error _ _ Hu) as [i Hi].
  apply (update_xml_by_index root _ _ i u (f u)).
  - apply collect_targets_nodup. exact Hplain.
  - exact Hi.
  - apply map_nth_error. exact Hi.
  - apply in_collect in Hu. destruct Hu as (p & e & Hp & Hu).
    apply own_units_elem in Hu. rewrite Hu, Hp. discriminate.
Qed.

(** X12. A whole run up to [tree.write]: let the input parse to a
    document without attributes named [text] or [tail], with something
    collected, and let the service answer every batch with one translation
    per string. The tree the run hands to [tree.write] is then [doc], the
    input updated with the translation of every queued string: it has the
    skeleton of the input and the slot of every collected unit holds the
    translation of the unit's queued string. When the output stage raises
    nothing for [doc], the run returns the output path and ends with
    [tree.write] of [doc], the pretty-printing pass over that file (whose
    re-indented text is what the file holds in the end) and the message of
    completion. *)
Theorem successful_run_translates_every_unit (rt : Runtime) (input_file : pystr)
    (output_file : option pystr) (root : Element)
    (translate_one : pystr -> Translated) :
  let units := collect_translatable_text root in
  let out := chosen_output_file rt input_file output_file in
  let doc :=
    update_xml root units
      (List.map (fun u => tr_text (translate_one (unit_text u))) units) in
  parse_xml rt input_file = inr root ->
  units <> [] ->
  every_element plain_attributes root ->
  (forall k batch, translator rt k batch = Results (List.map translate_one batch)) ->
  output_error rt out doc = None ->
  (exists trace before,
      translate_xml_to_urdu rt input_file output_file = (trace, Returned out)
      /\ written trace = [(out, doc)]
      /\ trace = before ++ [WriteXml out doc; PrettyPrint out doc;
                            Print (py "Translation completed. Saved to: " ++ out)])
  /\ skeleton doc = skeleton root
  /\ forall u, In u units ->
               slot_at doc (unit_elem u) (unit_attr u)
               = Some (Some (tr_text (translate_one (unit_text u)))).
Proof.
  intros units out doc Hparse Hne Hplain Hpure Hout.
  assert (Hdoc : update_xml root units (adapter_output rt root) = doc).
  { unfold doc, adapter_output. fold units.
    rewrite (pointwise_output (translator rt) translate_one)
      by (try exact Hpure; unfold DEFAULT_BATCH_SIZE; lia).
    rewrite map_map. reflexivity. }
  split; [|split].
  - pose proof (run_result rt input_file output_file root Hparse Hne) as H.
    cbv zeta in H. fold units out in H. rewrite Hdoc in H. exact (H Hout).
  - apply (update_xml_structure skeleton skeleton_structural).
    apply Forall_forall. intros u. apply collected_units_valid.
  - intros u Hu.
    apply (updated_slots root (fun u => tr_text (translate_one (unit_text u))) u Hplain Hu).
Qed.

Lemma successful_run_translates_every_unit_witness :
  let rt := sample_runtime marking_translator labelled_string in
  let units := collect_translatable_text labelled_string in
  let out := chosen_output_file rt (py "strings.xml") (Some (py "out.xml")) in
  let doc :=
    update_xml labelled_string units
      (List.map (fun u => tr_text (mkTranslated (unit_text u) (py "ur:" ++ unit_text u)))
         units) in
  (exists trace before,
      translate_xml_to_urdu rt (py "strings.xml") (Some (py "out.xml"))
      = (trace, Returned out)
      /\ written trace = [(out, doc)]
      /\ trace = before ++ [WriteXml out doc; PrettyPrint out doc;
                            Print (py "Translation completed. Saved to: " ++ out)])
  /\ skeleton doc = skeleton labelled_string
  /\ forall u, In u units ->
               slot_at doc (unit_elem u) (unit_attr u)
               = Some (Some (tr_text (mkTranslated (unit_text u)
                                        (py "ur:" ++ unit_text u)))).
Proof.
  apply (successful_run_translates_every_unit
           (sample_runtime marking_translator labelled_string)
           (py "strings.xml") (Some (py "out.xml")) labelled_string
           (fun s => mkTranslated s (py "ur:" ++ s))).
  - reflexivity.
  - discriminate.
  - exact labelled_string_plain.
  - intros k batch. reflexivity.
  - reflexivity.
Defined.




(** X15. The translation service is sent the queued strings of the
    collected units, in document order, and nothing else; when parsing
    fails or nothing is collected it is not called. *)
Theorem only_queued_strings_are_sent (rt : Runtime) (input_file : pystr)
    (output_file : option pystr) :
  let trace := fst (translate_xml_to_urdu rt input_file output_file) in
  concat (sent_batches trace)
  = match parse_xml rt input_file with
    | inl _ => []
    | inr root => List.map unit_text (collect_translatable_text root)
    end
  /\ (sent_batches trace = [] <->
      match parse_xml rt input_file with
      | inl _ => True
      | inr root => collect_translatable_text root = []
      end).
Proof.
  intros trace. unfold trace.
  destruct (parse_xml rt input_file) as [message | root] eqn:Hparse.
  { destruct (run_without_units rt input_file output_file) as (Hs & _); [left; eauto|].
    rewrite Hs. split; [reflexivity | tauto]. }
  destruct (collect_translatable_text root) as [|u us] eqn:Hu.
  { destruct (run_without_units rt input_file output_file) as (Hs & _); [right; eauto|].
    rewrite Hs. split; [reflexivity | tauto]. }
  assert (Hne : collect_translatable_text root <> []) by congruence.
  destruct (run_with_units rt input_file output_file root Hparse Hne)
    as (before & translated & calls & Hb & Hs & _ & _ & E).
  destruct (write_output_spec rt
              (before ++ calls ++ [Print (py "Updating XML with translations...")])
              (chosen_output_file rt input_file output_file)
              (update_xml root (collect_translatable_text root) translated))
    as (added & Hfst & Hadded & _).
  pose proof (batch_translate_default
                (List.map unit_text (collect_translatable_text root))
                (translator rt)) as Hd.
  assert (Hcalls : sent_batches calls
                   = List.map
                       (fun k => batch_at (List.map unit_text
                                             (collect_translatable_text root))
                                          (k * DEFAULT_BATCH_SIZE) DEFAULT_BATCH_SIZE)
                       (seq 0 ((length (List.map unit_text
                                          (collect_translatable_text root))
                                + DEFAULT_BATCH_SIZE - 1) / DEFAULT_BATCH_SIZE))).
  { rewrite <- sent_batches_of_run with (translator := translator rt).
    f_equal. congruence. }
  clear Hb Hd.
  rewrite E, Hfst, !sent_batches_app, Hs, Hadded, Hcalls.
  cbn [sent_batches flat_map app]. rewrite !app_nil_r.
  assert (Hb : 0 < DEFAULT_BATCH_SIZE) by (unfold DEFAULT_BATCH_SIZE; lia).
  split; [rewrite concat_batches by exact Hb; rewrite Hu; reflexivity|].
  split; [|discriminate]. intros H. apply (f_equal (@length _)) in H.
  rewrite length_map, length_seq in H. cbn [length] in H.
  pose proof (ceil_div_covers
                (length (List.map unit_text (collect_translatable_text root)))
                DEFAULT_BATCH_SIZE Hb) as Hc.
  rewrite H in Hc. rewrite Hu in Hc. cbn in Hc. lia.
Qed.

(** ** Collector: the inclusion rule and the queued form, in the words of
    the specification *)

(** A string that is not empty once trimmed: it has a character that is
    not white space. *)
Definition visible (v : pystr) : Prop := exists c, In c v /\ isspace c = false.

(** A candidate string the specification lets through: not empty once
    trimmed, and without the character ['%']. *)
Definition translatable (v : pystr) : Prop :=
  visible v /\ ~ In (N_of_ascii "%"%char) v.

(** [s] is [v] without the white space that surrounds it: [v] is [s]
    between two runs of white space, and [s] neither starts nor ends with
    white space. *)
Definition trimmed (v s : pystr) : Prop :=
  exists l r,
    v = l ++ s ++ r
    /\ forallb isspace l = true /\ forallb isspace r = true
    /\ (forall c rest, s = c :: rest -> isspace c = false)
    /\ (forall front c, s = front ++ [c] -> isspace c = false).

(** The candidate string of an element that a slot name can stand for: the
    text for [text], the tail for [tail], the value of the attribute of
    that name otherwise (or as well, for an attribute named [text] or
    [tail]). *)
Definition candidate (e : Element) (slot v : pystr) : Prop :=
  (slot = py "text" /\ text e = Some v)
  \/ (slot = py "tail" /\ tail e = Some v)
  \/ In (slot, v) (attrib e).

Lemma strip_trimmed (v : pystr) : trimmed v (strip v).
Proof.
  destruct (lstrip_split v) as (l & El & Hl).
  destruct (rstrip_split (lstrip v)) as (r & Er & Hr).
  exists l, r. fold (strip v) in Er. rewrite <- Er.
  split; [exact El|]. split; [exact Hl|]. split; [exact Hr|].
  split; [apply strip_head | apply strip_last].
Qed.

Lemma all_space_no_visible (l : pystr) c :
  forallb isspace l = true -> In c l -> isspace c = false -> False.
Proof.
  intros Hl Hc Hs. rewrite forallb_forall in Hl. rewrite (Hl c Hc) in Hs. discriminate.
Qed.

Lemma visible_trimmed (v s : pystr) : trimmed v s -> (visible v <-> s <> []).
Proof.
  intros (l & r & -> & Hl & Hr & Hhead & _). split.
  - intros (c & Hc & Hs) ->. cbn [app] in Hc. apply in_app_or in Hc.
    destruct Hc as [Hc | Hc];
      [apply (all_space_no_visible l c) | apply (all_space_no_visible r c)];
      assumption.
  - intros Hne. destruct s as [|c rest]; [congruence|].
    exists c. split; [|eapply Hhead; reflexivity].
    apply in_or_app. right. left. reflexivity.
Qed.

(** White space in front is determined by what it stands before. *)
Lemma leading_space_unique (l l' s s' r r' : pystr) :
  forallb isspace l = true -> forallb isspace l' = true ->
  (forall c rest, s = c :: rest -> isspace c = false) ->
  (forall c rest, s' = c :: rest -> isspace c = false) ->
  s <> [] -> s' <> [] ->
  l ++ s ++ r = l' ++ s' ++ r' -> l = l'.
Proof.
  revert l'. induction l as [|x l IH]; intros [|y l'] Hl Hl' Hs Hs' Hne Hne' E.
  - reflexivity.
  - exfalso. destruct s as [|c rest]; [congruence|].
    cbn in E. injection E as -> _. cbn in Hl'. apply andb_true_iff in Hl'.
    rewrite (Hs y rest eq_refl) in Hl'. destruct Hl'. discriminate.
  - exfalso. destruct s' as [|c rest]; [congruence|].
    cbn in E. injection E as -> _. cbn in Hl. apply andb_true_iff in Hl.
    rewrite (Hs' c rest eq_refl) in Hl. destruct Hl. discriminate.
  - cbn in E. injection E as -> E. cbn in Hl, Hl'.
    apply andb_true_iff in Hl, Hl'. f_equal. apply IH; tauto.
Qed.

(** A string has one trimmed form. *)
Lemma trimmed_unique (v s s' : pystr) : trimmed v s -> trimmed v s' -> s = s'.
Proof.
  intros H H'.
  pose proof (visible_trimmed v s H) as V. pose proof (visible_trimmed v s' H') as V'.
  destruct s as [|c0 s0]; [destruct s' as [|c1 s1]; [reflexivity|]|].
  { exfalso. assert (@nil N <> []) by (apply V, V'; discriminate). congruence. }
  assert (Hne : c0 :: s0 <> []) by discriminate.
  assert (Hne' : s' <> []) by (apply V', V; exact Hne).
  destruct H as (l & r & E & Hl & Hr & Hh & Ht).
  destruct H' as (l' & r' & E' & Hl' & Hr' & Hh' & Ht').
  rewrite E in E'.
  pose proof (leading_space_unique l l' _ _ r r' Hl Hl' Hh Hh' Hne Hne' E') as ->.
  apply app_inv_head in E'.
  assert (Er : rev r = rev r').
  { apply (leading_space_unique (rev r) (rev r') (rev (c0 :: s0)) (rev s') (@nil N) (@nil N)).
    - rewrite forallb_forall in *. intros x Hx. apply Hr, in_rev. exact Hx.
    - rewrite forallb_forall in *. intros x Hx. apply Hr', in_rev. exact Hx.
    - intros c rest Ec. apply (Ht (rev rest) c).
      rewrite <- (rev_involutive (c0 :: s0)), Ec. reflexivity.
    - intros c rest Ec. apply (Ht' (rev rest) c).
      rewrite <- (rev_involutive s'), Ec. reflexivity.
    - intros Ec. apply (f_equal (@rev N)) in Ec. rewrite rev_involutive in Ec.
      discriminate Ec.
    - intros Ec. apply (f_equal (@rev N)) in Ec. rewrite rev_involutive in Ec.
      apply Hne'. exact Ec.
    - rewrite !app_nil_r, <- !rev_app_distr. f_equal. exact E'. }
  apply (f_equal (@rev N)) in Er. rewrite !rev_involutive in Er. subst r'.
  apply app_inv_tail in E'. exact E'.
Qed.

Lemma accepted_translatable (v : pystr) : accepted v <-> translatable v.
Proof.
  unfold accepted, translatable.
  rewrite (visible_trimmed v (strip v) (strip_trimmed v)). reflexivity.
Qed.

Lemma identifier_attrs_names (k : pystr) :
  In k identifier_attrs <-> k = py "name" \/ k = py "id" \/ k = py "identifier".
Proof.
  unfold identifier_attrs. cbn [In]. intuition congruence.
Qed.

Lemma own_units_in_words (u : TranslationUnit) (p : path) (e : Element) :
  In u (own_units p e) <->
  (exists v, text e = Some v /\ translatable v
             /\ u = (clean_text (strip v), p, py "text"))
  \/ (exists v, tail e = Some v /\ translatable v
                /\ u = (clean_text (strip v), p, py "tail"))
  \/ (exists k v, In (k, v) (attrib e) /\ translatable v
                  /\ k <> py "name" /\ k <> py "id" /\ k <> py "identifier"
                  /\ u = (clean_text (strip v), p, k)).
Proof.
  rewrite in_own_units. unfold from_text, from_tail, from_attribute.
  split.
  - intros [(v & Hv & A & E) | [(v & Hv & A & E) | (k & v & Hin & A & Hk & E)]].
    + left. exists v. rewrite <- accepted_translatable. auto.
    + right. left. exists v. rewrite <- accepted_translatable. auto.
    + right. right. exists k, v. rewrite <- accepted_translatable.
      rewrite identifier_attrs_names in Hk. tauto.
  - intros [(v & Hv & A & E) | [(v & Hv & A & E) | (k & v & Hin & A & H1 & H2 & H3 & E)]].
    + left. exists v. rewrite accepted_translatable. auto.
    + right. left. exists v. rewrite accepted_translatable. auto.
    + right. right. exists k, v. rewrite accepted_translatable, identifier_attrs_names.
      tauto.
Qed.



(** C5. The string queued for a collected candidate is the candidate's
    value without the white space around it and with three dots for every
    ellipsis character: every unit's string is that of the candidate its
    slot stands for, every candidate that is let through is queued in that
    form, and a value has one trimmed form. The text ["Loading…"] is queued
    as ["Loading..."], with or without white space around it. *)
Theorem queued_string_normalised :
  (forall root u,
      In u (collect_translatable_text root) ->
      exists e v s,
        get_elem root (unit_elem u) = Some e
        /\ candidate e (unit_attr u) v
        /\ trimmed v s
        /\ unit_text u = ellipsis_to_dots s)
  /\ (forall root p e v s,
         get_elem root p = Some e -> trimmed v s -> translatable v ->
         (text e = Some v ->
          In (ellipsis_to_dots s, p, py "text") (collect_translatable_text root))
         /\ (tail e = Some v ->
             In (ellipsis_to_dots s, p, py "tail") (collect_translatable_text root))
         /\ (forall k,
                In (k, v) (attrib e) ->
                k <> py "name" -> k <> py "id" -> k <> py "identifier" ->
                In (ellipsis_to_dots s, p, k) (collect_translatable_text root)))
  /\ (forall v s s', trimmed v s -> trimmed v s' -> s = s')
  /\ (forall s, ellipsis_to_dots s
                = flat_map (fun c => if N.eqb c 8230 then [46; 46; 46]%N else [c]) s)
  /\ (forall tg,
         collect_translatable_text
           (mkElement tg [] (Some (py "Loading" ++ [8230%N])) None [])
         = [(py "Loading...", [], py "text")])
  /\ (forall tg,
         collect_translatable_text
           (mkElement tg [(py "label", [8230; 32; 120; 8230; 10]%N)]
                      (Some ([32; 9]%N ++ py "Loading" ++ [8230; 10; 160]%N))
                      (Some ([10]%N ++ py "a b" ++ [12288]%N)) [])
         = [(py "Loading...", [], py "text"); (py "a b", [], py "tail");
            (py "... x...", [], py "label")]).
Proof.
  split; [|split; [|split; [|split; [|split]]]].
  - intros root u Hu. apply in_collect in Hu. destruct Hu as (p & e & Hp & Hu).
    apply own_units_in_words in Hu.
    destruct Hu as [(v & Hv & _ & ->) | [(v & Hv & _ & ->) | (k & v & Hv & _ & _ & _ & _ & ->)]];
      exists e, v, (strip v); cbn [unit_elem unit_attr unit_text fst snd];
      (split; [exact Hp|]); (split; [unfold candidate; auto|]);
      (split; [apply strip_trimmed | apply clean_text_spec]).
  - intros root p e v s Hp Hs Hv.
    rewrite (trimmed_unique v s (strip v) Hs (strip_trimmed v)).
    rewrite <- clean_text_spec.
    repeat split.
    + intros Ht. apply in_collect. exists p, e. split; [exact Hp|].
      apply own_units_in_words. left. eauto.
    + intros Ht. apply in_collect. exists p, e. split; [exact Hp|].
      apply own_units_in_words. right. left. eauto.
    + intros k Hk H1 H2 H3. apply in_collect. exists p, e. split; [exact Hp|].
      apply own_units_in_words. right. right. exists k, v. auto 8.
  - apply trimmed_unique.
  - intros s. reflexivity.
  - intros tg. reflexivity.
  - intros tg. vm_compute. reflexivity.
Qed.
